(** * RISC-V code generator of the ToyC compiler: model and properties

    Shallow embedding of [src/codegen/riscv.cpp].  The generator is a
    visitor that walks the abstract syntax tree and appends lines of
    assembly text to one output buffer.  The embedding keeps the buffer as
    a string, threads the generator's member variables through every visit
    as an explicit state record, and follows the source method by method. *)

From Stdlib Require Import ZArith String Ascii List Lia Bool.
From Stdlib Require Import DecimalString DecimalPos DecimalZ.
From stdpp Require Import gmap strings.

Local Open Scope Z_scope.

Set Warnings "-register-all".

(** * Part I: the generator *)

(** ** Machine integers

    The generator computes with C++ [int].  Values are integers in
    [[int_min, int_max]]; the result of an arithmetic operation is reduced
    to that range by two's-complement wrap-around. *)

Module Int.

Definition int_min : Z := -2147483648.
Definition int_max : Z := 2147483647.
Definition modulus : Z := 4294967296.

Definition in_range (z : Z) : Prop := int_min <= z <= int_max.

Definition wrap (z : Z) : Z := (z - int_min) mod modulus + int_min.

Definition add (a b : Z) : Z := wrap (a + b).
Definition sub (a b : Z) : Z := wrap (a - b).
Definition mul (a b : Z) : Z := wrap (a * b).
(** C++ [/] and [%] truncate towards zero.  They have no result for a zero
    divisor, and none for [int_min / -1] and [int_min % -1], whose quotient
    is not an [int]: the behaviour of the program is undefined there, and
    [div] and [rem] return [None]. *)
Definition overflows (a b : Z) : bool := (a =? int_min) && (b =? -1).

Definition div (a b : Z) : option Z :=
  if (b =? 0) || overflows a b then None else Some (wrap (Z.quot a b)).
Definition rem (a b : Z) : option Z :=
  if (b =? 0) || overflows a b then None else Some (wrap (Z.rem a b)).

End Int.

(** ** [std::to_string] on integers: decimal digits, ['-'] for negatives *)

Definition to_string (z : Z) : string := NilZero.string_of_int (Z.to_int z).

(** Reading a decimal numeral back; used to interpret emitted operands. *)
Definition of_string (s : string) : option Z :=
  option_map Z.of_int (NilZero.int_of_string s).

(** ** Abstract syntax tree

    Modelled from the spec: the node classes are declared in a header
    outside this file.  The constructors are the node categories of the
    spec's data model, with the field names the visitor uses; [lhs] and
    [rhs] are the fields [left] and [right] of a binary node, and an
    optional child is a pointer that may be null. *)

Inductive UnaryOp := PLUS | MINUS | NOT.

Inductive BinaryOp :=
  ADD | SUB | MUL | DIV | MOD | LT | LE | GT | GE | EQ | NE | AND | OR.

Inductive Expression :=
| NumberLiteral (value : Z)
| Identifier (name : string)
| UnaryExpression (op : UnaryOp) (operand : Expression)
| BinaryExpression (op : BinaryOp) (lhs rhs : Expression)
| FunctionCall (functionName : string) (arguments : list Expression).

Inductive Statement :=
| VariableDeclaration (name : string) (initializer : option Expression)
| AssignmentStatement (variable : string) (value : Expression)
| Block (statements : list Statement)
| IfStatement (condition : Expression) (thenStatement : Statement)
    (elseStatement : option Statement)
| WhileStatement (condition : Expression) (body : Statement)
| BreakStatement
| ContinueStatement
| ReturnStatement (value : option Expression)
| ExpressionStatement (expression : Expression).

Record FunctionDefinition := {
  fd_name : string;
  fd_body : Statement
}.

Record CompilationUnit := {
  cu_functions : list FunctionDefinition
}.

(** Modelled from the spec: the signature table's entry type
    [FunctionInfo] is declared outside this file; the spec describes it as
    arity metadata.  The generator only stores the table. *)
Record FunctionInfo := { fi_arity : nat }.

(** ** Generator state: the member variables of [RISCVCodeGenerator]

    Modelled from the spec: the class is declared in a header outside this
    file; the fields are the members its methods read and write. *)

Record CodeGen := {
  output : string;
  functions : gmap string FunctionInfo;
  stackOffset : Z;
  labelCounter : Z;
  optimizationsEnabled : bool;
  constantValues : gmap string Z;
  localVariables : gmap string Z;
  currentFunction : string
}.

Definition set_output (o : string) (g : CodeGen) : CodeGen :=
  {| output := o; functions := functions g; stackOffset := stackOffset g;
     labelCounter := labelCounter g;
     optimizationsEnabled := optimizationsEnabled g;
     constantValues := constantValues g;
     localVariables := localVariables g;
     currentFunction := currentFunction g |}.

Definition set_functions (f : gmap string FunctionInfo) (g : CodeGen) : CodeGen :=
  {| output := output g; functions := f; stackOffset := stackOffset g;
     labelCounter := labelCounter g;
     optimizationsEnabled := optimizationsEnabled g;
     constantValues := constantValues g;
     localVariables := localVariables g;
     currentFunction := currentFunction g |}.

Definition set_stackOffset (z : Z) (g : CodeGen) : CodeGen :=
  {| output := output g; functions := functions g; stackOffset := z;
     labelCounter := labelCounter g;
     optimizationsEnabled := optimizationsEnabled g;
     constantValues := constantValues g;
     localVariables := localVariables g;
     currentFunction := currentFunction g |}.

Definition set_labelCounter (z : Z) (g : CodeGen) : CodeGen :=
  {| output := output g; functions := functions g;
     stackOffset := stackOffset g; labelCounter := z;
     optimizationsEnabled := optimizationsEnabled g;
     constantValues := constantValues g;
     localVariables := localVariables g;
     currentFunction := currentFunction g |}.

Definition set_localVariables (m : gmap string Z) (g : CodeGen) : CodeGen :=
  {| output := output g; functions := functions g;
     stackOffset := stackOffset g; labelCounter := labelCounter g;
     optimizationsEnabled := optimizationsEnabled g;
     constantValues := constantValues g;
     localVariables := m;
     currentFunction := currentFunction g |}.

Definition set_currentFunction (f : string) (g : CodeGen) : CodeGen :=
  {| output := output g; functions := functions g;
     stackOffset := stackOffset g; labelCounter := labelCounter g;
     optimizationsEnabled := optimizationsEnabled g;
     constantValues := constantValues g;
     localVariables := localVariables g;
     currentFunction := f |}.

(** ** Emission *)

Definition newline : string := String (ascii_of_nat 10) EmptyString.

(** [emit]: [output += instruction + "\n"]. *)
Definition emit (instruction : string) (g : CodeGen) : CodeGen :=
  set_output (output g +:+ instruction +:+ newline) g.

(** [emitLabel]: [output += label + ":\n"]. *)
Definition emitLabel (label : string) (g : CodeGen) : CodeGen :=
  set_output (output g +:+ label +:+ ":" +:+ newline) g.

(** [newLabel]: [return prefix + std::to_string(labelCounter++)]. *)
Definition newLabel (prefix : string) (g : CodeGen) : string * CodeGen :=
  (prefix +:+ to_string (labelCounter g),
   set_labelCounter (Int.add (labelCounter g) 1) g).

(** ** Constant evaluator

    An [Expression*] may be null: [None]. *)

Definition isConstantExpression (expr : option Expression) (g : CodeGen) : bool :=
  match expr with
  | None => false
  | Some (NumberLiteral _) => true
  | Some (Identifier name) =>
      match constantValues g !! name with
      | Some _ => true
      | None => false
      end
  | Some _ => false
  end.

Definition evaluateConstantExpression (expr : option Expression) (g : CodeGen) : Z :=
  match expr with
  | Some (NumberLiteral value) => value
  | Some (Identifier name) =>
      match constantValues g !! name with
      | Some v => v
      | None => 0
      end
  | _ => 0
  end.

(** ** Visitor

    Every visit method mutates the generator: a function
    [CodeGen -> CodeGen].  [f >>> k] runs [f], then [k]. *)

Notation "f >>> k" := (fun g : CodeGen => k (f g))
  (at level 50, left associativity, only parsing).

Definition skip : CodeGen -> CodeGen := fun g => g.

(** [for (const auto& x : xs) x->accept( *this );] *)
Definition visitAll {A : Type} (visit : A -> CodeGen -> CodeGen)
  : list A -> CodeGen -> CodeGen :=
  fix go (xs : list A) : CodeGen -> CodeGen :=
    match xs with
    | [] => skip
    | x :: xs' => visit x >>> go xs'
    end.

(** [optimizeConstantFolding].  The method returns [void]; the caller learns
    nothing about whether something was emitted.  [visitLeft] stands for
    [node.left->accept( *this )].

    The divisions of the fold are guarded against a zero divisor only.  For
    [INT_MIN / -1] and [INT_MIN % -1] the C++ expression has no value and
    the behaviour of the generator is undefined; state passing has no
    outcome for such a run, [folded] is [None] there and the state is left
    as it is.  [fold_undefined] below marks these runs, and what is proved
    of the text of a fold is proved of the runs it does not mark. *)
Definition optimizeConstantFolding (visitLeft : CodeGen -> CodeGen)
    (op : BinaryOp) (lhs rhs : Expression) (g : CodeGen) : CodeGen :=
  if negb (optimizationsEnabled g) then g
  else if isConstantExpression (Some lhs) g
          && isConstantExpression (Some rhs) g then
    let leftVal := evaluateConstantExpression (Some lhs) g in
    let rightVal := evaluateConstantExpression (Some rhs) g in
    let folded : option Z :=
      match op with
      | ADD => Some (Int.add leftVal rightVal)
      | SUB => Some (Int.sub leftVal rightVal)
      | MUL => Some (Int.mul leftVal rightVal)
      | DIV => if negb (rightVal =? 0) then Int.div leftVal rightVal
               else None
      | MOD => if negb (rightVal =? 0) then Int.rem leftVal rightVal
               else None
      | _ => None
      end in
    match folded with
    | None => g
    | Some result =>
        (emit ("li t0, " +:+ to_string result) >>>
         emit "addi sp, sp, -4" >>>
         emit "sw t0, 0(sp)") g
    end
  else if isConstantExpression (Some rhs) g then
    let rightVal := evaluateConstantExpression (Some rhs) g in
    match op with
    | ADD => if rightVal =? 0 then visitLeft g else g
    | MUL =>
        if rightVal =? 1 then visitLeft g
        else if rightVal =? 0 then
          (emit "li t0, 0" >>>
           emit "addi sp, sp, -4" >>>
           emit "sw t0, 0(sp)") g
        else g
    | _ => g
    end
  else g.

(** The operator [switch] of [visit(BinaryExpression&)]. *)
Definition emitBinaryOp (op : BinaryOp) : CodeGen -> CodeGen :=
  match op with
  | ADD => emit "add t0, t0, t1"
  | SUB => emit "sub t0, t0, t1"
  | MUL => emit "mul t0, t0, t1"
  | DIV => emit "div t0, t0, t1"
  | MOD => emit "rem t0, t0, t1"
  | LT => emit "slt t0, t0, t1"
  | LE => emit "slt t2, t1, t0" >>> emit "xori t0, t2, 1"
  | GT => emit "slt t0, t1, t0"
  | GE => emit "slt t2, t0, t1" >>> emit "xori t0, t2, 1"
  | EQ => emit "sub t0, t0, t1" >>> emit "seqz t0, t0"
  | NE => emit "sub t0, t0, t1" >>> emit "snez t0, t0"
  | AND => emit "and t0, t0, t1"
  | OR => emit "or t0, t0, t1"
  end.

(** The operator [switch] of [visit(UnaryExpression&)]. *)
Definition emitUnaryOp (op : UnaryOp) : CodeGen -> CodeGen :=
  match op with
  | PLUS => skip
  | MINUS => emit "neg t0, t0"
  | NOT => emit "seqz t0, t0"
  end.

Definition visitNumberLiteral (value : Z) : CodeGen -> CodeGen :=
  emit ("li t0, " +:+ to_string value) >>>
  emit "addi sp, sp, -4" >>>
  emit "sw t0, 0(sp)".

Definition visitIdentifier (name : string) (g : CodeGen) : CodeGen :=
  match localVariables g !! name with
  | Some offset =>
      (emit ("lw t0, " +:+ to_string offset +:+ "(fp)") >>>
       emit "addi sp, sp, -4" >>>
       emit "sw t0, 0(sp)") g
  | None =>
      (emit ("la t0, " +:+ name) >>>
       emit "lw t0, 0(t0)" >>>
       emit "addi sp, sp, -4" >>>
       emit "sw t0, 0(sp)") g
  end.

(** [Expression::accept] dispatching to the [visit] overloads. *)
Fixpoint visitExpression (e : Expression) : CodeGen -> CodeGen :=
  match e with
  | NumberLiteral value => visitNumberLiteral value
  | Identifier name => visitIdentifier name
  | UnaryExpression op operand =>
      visitExpression operand >>>
      emit "lw t0, 0(sp)" >>>
      emitUnaryOp op >>>
      emit "sw t0, 0(sp)"
  | BinaryExpression op lhs rhs => fun g =>
      if optimizationsEnabled g then
        (* optimizeConstantFolding(node); return; *)
        optimizeConstantFolding (visitExpression lhs) op lhs rhs g
      else
        (visitExpression lhs >>>
         visitExpression rhs >>>
         emit "lw t1, 0(sp)" >>>
         emit "addi sp, sp, 4" >>>
         emit "lw t0, 0(sp)" >>>
         emitBinaryOp op >>>
         emit "sw t0, 0(sp)") g
  | FunctionCall functionName arguments =>
      visitAll visitExpression arguments >>>
      emit ("call " +:+ functionName) >>>
      emit ("addi sp, sp, " +:+ to_string (Z.of_nat (length arguments) * 4)) >>>
      emit "addi sp, sp, -4" >>>
      emit "sw a0, 0(sp)"
  end.

Definition generateEpilogue : CodeGen -> CodeGen :=
  emit "lw ra, -4(fp)" >>>
  emit "lw fp, -8(fp)" >>>
  emit "addi sp, sp, 8" >>>
  emit "ret".

(** [optimizeDeadCodeElimination]: walks the dead-code list and does
    nothing with it. *)
Definition optimizeDeadCodeElimination : CodeGen -> CodeGen := skip.

Definition generatePrologue (funcName : string) (localSize : Z)
  : CodeGen -> CodeGen :=
  emitLabel funcName >>>
  emit ("addi sp, sp, -" +:+ to_string localSize) >>>
  emit ("sw ra, " +:+ to_string (Int.sub localSize 4) +:+ "(sp)") >>>
  emit ("sw fp, " +:+ to_string (Int.sub localSize 8) +:+ "(sp)") >>>
  emit ("addi fp, sp, " +:+ to_string localSize).

Definition visitAssignmentStatement (variable : string) (value : Expression)
  : CodeGen -> CodeGen :=
  visitExpression value >>>
  emit "lw t0, 0(sp)" >>>
  emit "addi sp, sp, 4" >>>
  (fun g =>
     match localVariables g !! variable with
     | Some offset => emit ("sw t0, " +:+ to_string offset +:+ "(fp)") g
     | None => (emit ("la t1, " +:+ variable) >>> emit "sw t0, 0(t1)") g
     end).

Definition visitVariableDeclaration (name : string)
    (initializer : option Expression) : CodeGen -> CodeGen :=
  match initializer with
  | Some init =>
      visitExpression init >>>
      emit "lw t0, 0(sp)" >>>
      emit "addi sp, sp, 4"
  | None => emit "li t0, 0"
  end >>>
  (fun g => set_stackOffset (Int.sub (stackOffset g) 4) g) >>>
  (fun g => set_localVariables (<[name := stackOffset g]> (localVariables g)) g) >>>
  (fun g => emit ("sw t0, " +:+ to_string (stackOffset g) +:+ "(fp)") g).

Definition visitReturnStatement (value : option Expression)
  : CodeGen -> CodeGen :=
  match value with
  | Some v =>
      visitExpression v >>>
      emit "lw a0, 0(sp)" >>>
      emit "addi sp, sp, 4"
  | None => emit "li a0, 0"
  end >>>
  generateEpilogue.

(** [Statement::accept] dispatching to the [visit] overloads. *)
Fixpoint visitStatement (s : Statement) : CodeGen -> CodeGen :=
  match s with
  | VariableDeclaration name initializer =>
      visitVariableDeclaration name initializer
  | AssignmentStatement variable value =>
      visitAssignmentStatement variable value
  | Block statements => visitAll visitStatement statements
  | IfStatement condition thenStatement elseStatement => fun g =>
      let (elseLabel, g1) := newLabel "else" g in
      let (endLabel, g2) := newLabel "endif" g1 in
      (visitExpression condition >>>
       emit "lw t0, 0(sp)" >>>
       emit "addi sp, sp, 4" >>>
       emit ("beqz t0, " +:+ elseLabel) >>>
       visitStatement thenStatement >>>
       emit ("j " +:+ endLabel) >>>
       emitLabel elseLabel >>>
       match elseStatement with
       | Some els => visitStatement els
       | None => skip
       end >>>
       emitLabel endLabel) g2
  | WhileStatement condition body => fun g =>
      let (loopLabel, g1) := newLabel "loop" g in
      let (endLabel, g2) := newLabel "endloop" g1 in
      (emitLabel loopLabel >>>
       visitExpression condition >>>
       emit "lw t0, 0(sp)" >>>
       emit "addi sp, sp, 4" >>>
       emit ("beqz t0, " +:+ endLabel) >>>
       visitStatement body >>>
       emit ("j " +:+ loopLabel) >>>
       emitLabel endLabel) g2
  | BreakStatement => emit "j break_label"
  | ContinueStatement => emit "j continue_label"
  | ReturnStatement value => visitReturnStatement value
  | ExpressionStatement expression =>
      visitExpression expression >>>
      emit "addi sp, sp, 4"
  end.

Definition visitFunctionDefinition (node : FunctionDefinition)
  : CodeGen -> CodeGen :=
  set_currentFunction (fd_name node) >>>
  set_localVariables ∅ >>>
  set_stackOffset 0 >>>
  (let localSize := 8 in
   generatePrologue (fd_name node) localSize) >>>
  visitStatement (fd_body node) >>>
  generateEpilogue.

Definition visitCompilationUnit (node : CompilationUnit)
  : CodeGen -> CodeGen :=
  visitAll visitFunctionDefinition (cu_functions node).

(** [generate]: the entry point.  Returns the text and the generator as the
    call leaves it. *)
Definition generate (unit : CompilationUnit)
    (funcTable : gmap string FunctionInfo) (g : CodeGen) : string * CodeGen :=
  let g' :=
    (set_output "" >>>
     set_functions funcTable >>>
     set_stackOffset 0 >>>
     set_labelCounter 0 >>>
     emit ".data" >>>
     emit ".text" >>>
     emit ".global main" >>>
     visitCompilationUnit unit) g in
  (output g', g').

(** * Part II: vocabulary of the properties *)

(** ** Reading the emitted text

    The output is line oriented.  [lines] splits a text at newlines;
    [sp_adjust] is the immediate of a line [addi sp, sp, <imm>] and zero for
    any other line; [net_sp] adds the adjustments of all lines of a text:
    the net displacement of the stack pointer over the straight-line text. *)

Definition is_newline (c : ascii) : bool := Ascii.eqb c (ascii_of_nat 10).

Fixpoint lines (s : string) : list string :=
  match s with
  | EmptyString => []
  | String c s' =>
      if is_newline c then EmptyString :: lines s'
      else match lines s' with
           | [] => [String c EmptyString]
           | l :: ls => String c l :: ls
           end
  end.

Fixpoint after_prefix (p s : string) : option string :=
  match p with
  | EmptyString => Some s
  | String a p' =>
      match s with
      | EmptyString => None
      | String b s' => if Ascii.eqb a b then after_prefix p' s' else None
      end
  end.

Definition sp_adjust (line : string) : Z :=
  match after_prefix "addi sp, sp, " line with
  | Some imm => match of_string imm with Some k => k | None => 0 end
  | None => 0
  end.

Definition sum_adjust (ls : list string) : Z :=
  fold_right (fun l acc => sp_adjust l + acc) 0 ls.

Definition net_sp (text : string) : Z := sum_adjust (lines text).

(** A text made of complete lines. *)
Definition unlines (ls : list string) : string :=
  fold_right (fun l acc => l +:+ newline +:+ acc) EmptyString ls.

Fixpoint nlfree (s : string) : bool :=
  match s with
  | EmptyString => true
  | String c s' => negb (is_newline c) && nlfree s'
  end.

Definition is_digit (c : ascii) : bool :=
  (48 <=? nat_of_ascii c)%nat && (nat_of_ascii c <=? 57)%nat.

Fixpoint all_digits (s : string) : bool :=
  match s with
  | EmptyString => true
  | String c s' => is_digit c && all_digits s'
  end.

(** No character of the string is a decimal digit. *)
Fixpoint digit_free (s : string) : bool :=
  match s with
  | EmptyString => true
  | String c s' => negb (is_digit c) && digit_free s'
  end.

(** ** A word machine for the emitted operand-stack code

    Registers hold 32-bit words; memory maps addresses to words.  The
    instructions given meaning are the push and pop of a word and the
    register operations of expression lowering, division left out; any
    other line stops the machine. *)

Record Machine := {
  t0 : Z; t1 : Z; t2 : Z; sp : Z;
  mem : gmap Z Z
}.

Definition load (m : Machine) (addr : Z) : Z :=
  match mem m !! addr with Some v => v | None => 0 end.

Definition set_t0 (v : Z) (m : Machine) : Machine :=
  {| t0 := v; t1 := t1 m; t2 := t2 m; sp := sp m; mem := mem m |}.
Definition set_t1 (v : Z) (m : Machine) : Machine :=
  {| t0 := t0 m; t1 := v; t2 := t2 m; sp := sp m; mem := mem m |}.
Definition set_t2 (v : Z) (m : Machine) : Machine :=
  {| t0 := t0 m; t1 := t1 m; t2 := v; sp := sp m; mem := mem m |}.
Definition set_sp (v : Z) (m : Machine) : Machine :=
  {| t0 := t0 m; t1 := t1 m; t2 := t2 m; sp := v; mem := mem m |}.
Definition store (addr v : Z) (m : Machine) : Machine :=
  {| t0 := t0 m; t1 := t1 m; t2 := t2 m; sp := sp m;
     mem := <[addr := v]> (mem m) |}.

Definition bool_word (b : bool) : Z := if b then 1 else 0.

Definition exec_line (line : string) (m : Machine) : option Machine :=
  if String.eqb line "sw t0, 0(sp)" then Some (store (sp m) (t0 m) m)
  else if String.eqb line "lw t0, 0(sp)" then Some (set_t0 (load m (sp m)) m)
  else if String.eqb line "lw t1, 0(sp)" then Some (set_t1 (load m (sp m)) m)
  else if String.eqb line "add t0, t0, t1" then Some (set_t0 (Int.add (t0 m) (t1 m)) m)
  else if String.eqb line "sub t0, t0, t1" then Some (set_t0 (Int.sub (t0 m) (t1 m)) m)
  else if String.eqb line "mul t0, t0, t1" then Some (set_t0 (Int.mul (t0 m) (t1 m)) m)
  else if String.eqb line "slt t0, t0, t1" then Some (set_t0 (bool_word (t0 m <? t1 m)) m)
  else if String.eqb line "slt t0, t1, t0" then Some (set_t0 (bool_word (t1 m <? t0 m)) m)
  else if String.eqb line "slt t2, t1, t0" then Some (set_t2 (bool_word (t1 m <? t0 m)) m)
  else if String.eqb line "slt t2, t0, t1" then Some (set_t2 (bool_word (t0 m <? t1 m)) m)
  else if String.eqb line "xori t0, t2, 1" then Some (set_t0 (Z.lxor (t2 m) 1) m)
  else if String.eqb line "seqz t0, t0" then Some (set_t0 (bool_word (t0 m =? 0)) m)
  else if String.eqb line "snez t0, t0" then Some (set_t0 (bool_word (negb (t0 m =? 0))) m)
  else if String.eqb line "neg t0, t0" then Some (set_t0 (Int.sub 0 (t0 m)) m)
  else if String.eqb line "and t0, t0, t1" then Some (set_t0 (Z.land (t0 m) (t1 m)) m)
  else if String.eqb line "or t0, t0, t1" then Some (set_t0 (Z.lor (t0 m) (t1 m)) m)
  else match after_prefix "li t0, " line with
       | Some imm => option_map (fun k => set_t0 k m) (of_string imm)
       | None =>
           match after_prefix "addi sp, sp, " line with
           | Some imm => option_map (fun k => set_sp (Int.add (sp m) k) m) (of_string imm)
           | None => None
           end
       end.

Fixpoint exec_lines (ls : list string) (m : Machine) : option Machine :=
  match ls with
  | [] => Some m
  | l :: ls' =>
      match exec_line l m with
      | Some m' => exec_lines ls' m'
      | None => None
      end
  end.

Definition run (text : string) (m : Machine) : option Machine :=
  exec_lines (lines text) m.

(** The word on top of the operand stack. *)
Definition stack_top (m : Machine) : Z := load m (sp m).

Definition machine0 : Machine :=
  {| t0 := 0; t1 := 0; t2 := 0; sp := 4096; mem := ∅ |}.

(** ** Vocabulary of the properties *)

(** A generator as constructed: empty buffer, counters at zero, with the
    given optimization switch and known-constants table. *)
Definition fresh (opt : bool) (consts : gmap string Z) : CodeGen :=
  {| output := EmptyString; functions := ∅; stackOffset := 0;
     labelCounter := 0; optimizationsEnabled := opt;
     constantValues := consts; localVariables := ∅;
     currentFunction := EmptyString |}.

(** The value of [a op b] in the integers, for the five arithmetic
    operators; division and remainder truncate towards zero and are
    undefined for a zero divisor. *)
Definition arith_value (op : BinaryOp) (a b : Z) : option Z :=
  match op with
  | ADD => Some (a + b)
  | SUB => Some (a - b)
  | MUL => Some (a * b)
  | DIV => if b =? 0 then None else Some (Z.quot a b)
  | MOD => if b =? 0 then None else Some (Z.rem a b)
  | _ => None
  end.

(** Both operands constant and the operator folded. *)
Definition full_fold_applies (op : BinaryOp) (lhs rhs : Expression)
    (g : CodeGen) : bool :=
  isConstantExpression (Some lhs) g && isConstantExpression (Some rhs) g &&
  match arith_value op (evaluateConstantExpression (Some lhs) g)
                       (evaluateConstantExpression (Some rhs) g) with
  | Some _ => true
  | None => false
  end.

(** The full fold is entered and evaluates [INT_MIN / -1] or
    [INT_MIN % -1], which C++ leaves undefined. *)
Definition fold_undefined (op : BinaryOp) (lhs rhs : Expression)
    (g : CodeGen) : bool :=
  isConstantExpression (Some lhs) g && isConstantExpression (Some rhs) g &&
  match op with
  | DIV | MOD => Int.overflows (evaluateConstantExpression (Some lhs) g)
                               (evaluateConstantExpression (Some rhs) g)
  | _ => false
  end.

(** The right operand matches one of [x + 0], [x * 1], [x * 0]. *)
Definition simplification_matches (op : BinaryOp) (rhs : Expression)
    (g : CodeGen) : bool :=
  isConstantExpression (Some rhs) g &&
  match op with
  | ADD => evaluateConstantExpression (Some rhs) g =? 0
  | MUL => (evaluateConstantExpression (Some rhs) g =? 1)
           || (evaluateConstantExpression (Some rhs) g =? 0)
  | _ => false
  end.

(** The prefixes the generator passes to [newLabel]. *)
Definition label_prefixes : list string := ["else"; "endif"; "loop"; "endloop"].

(** The push of register [t0] loaded with an immediate. *)
Definition push_immediate (v : Z) : list string :=
  ["li t0, " +:+ to_string v; "addi sp, sp, -4"; "sw t0, 0(sp)"].

(** The non-folded lowering of a binary node, after both operands. *)
Definition binary_tail (opcode : list string) : list string :=
  ["lw t1, 0(sp)"; "addi sp, sp, 4"; "lw t0, 0(sp)"] ++ opcode ++
  ["sw t0, 0(sp)"].

(** A series of calls to [newLabel], one per prefix, in order. *)
Fixpoint newLabels (prefixes : list string) (g : CodeGen)
  : list string * CodeGen :=
  match prefixes with
  | [] => ([], g)
  | prefix :: rest =>
      let (label, g1) := newLabel prefix g in
      let (labels, g2) := newLabels rest g1 in
      (label :: labels, g2)
  end.

(** Number of calls to [newLabel] made while lowering a statement: two for
    each conditional and each loop. *)
Fixpoint label_calls (s : Statement) : nat :=
  match s with
  | Block statements =>
      fold_right (fun s acc => label_calls s + acc)%nat 0%nat statements
  | IfStatement _ thn els =>
      (2 + label_calls thn +
       match els with Some s => label_calls s | None => 0 end)%nat
  | WhileStatement _ body => (2 + label_calls body)%nat
  | _ => 0%nat
  end.

Definition label_calls_unit (unit : CompilationUnit) : nat :=
  fold_right (fun f acc => label_calls (fd_body f) + acc)%nat 0%nat
    (cu_functions unit).

(** Names are single-line: no identifier or callee name holds a newline. *)
Fixpoint expression_names_ok (e : Expression) : bool :=
  match e with
  | NumberLiteral _ => true
  | Identifier name => nlfree name
  | UnaryExpression _ operand => expression_names_ok operand
  | BinaryExpression _ lhs rhs =>
      expression_names_ok lhs && expression_names_ok rhs
  | FunctionCall functionName arguments =>
      nlfree functionName && forallb expression_names_ok arguments
  end.

Definition optional_names_ok (e : option Expression) : bool :=
  match e with
  | Some e => expression_names_ok e
  | None => true
  end.

Fixpoint statement_names_ok (s : Statement) : bool :=
  match s with
  | VariableDeclaration name init => nlfree name && optional_names_ok init
  | AssignmentStatement variable value =>
      nlfree variable && expression_names_ok value
  | Block statements => forallb statement_names_ok statements
  | IfStatement condition thn els =>
      expression_names_ok condition && statement_names_ok thn &&
      match els with Some s => statement_names_ok s | None => true end
  | WhileStatement condition body =>
      expression_names_ok condition && statement_names_ok body
  | BreakStatement | ContinueStatement => true
  | ReturnStatement value => optional_names_ok value
  | ExpressionStatement expression => expression_names_ok expression
  end.

(** With optimizations enabled: every binary expression that the lowering
    of [e] reaches is fully folded, by a fold whose arithmetic is defined,
    or simplified.  The operands of a folded node and the left operand of
    [x * 0] are not reached. *)
Fixpoint every_binary_optimized (g : CodeGen) (e : Expression) : bool :=
  match e with
  | NumberLiteral _ | Identifier _ => true
  | UnaryExpression _ operand => every_binary_optimized g operand
  | BinaryExpression op lhs rhs =>
      (full_fold_applies op lhs rhs g && negb (fold_undefined op lhs rhs g)) ||
      (negb (isConstantExpression (Some lhs) g) &&
       isConstantExpression (Some rhs) g &&
       match op with
       | ADD => (evaluateConstantExpression (Some rhs) g =? 0)
                && every_binary_optimized g lhs
       | MUL => ((evaluateConstantExpression (Some rhs) g =? 1)
                 && every_binary_optimized g lhs)
                || (evaluateConstantExpression (Some rhs) g =? 0)
       | _ => false
       end)
  | FunctionCall _ arguments => forallb (every_binary_optimized g) arguments
  end.

Definition optional_optimized (g : CodeGen) (e : option Expression) : bool :=
  match e with
  | Some e => every_binary_optimized g e
  | None => true
  end.

Fixpoint statement_optimized (g : CodeGen) (s : Statement) : bool :=
  match s with
  | VariableDeclaration _ init => optional_optimized g init
  | AssignmentStatement _ value => every_binary_optimized g value
  | Block statements => forallb (statement_optimized g) statements
  | IfStatement condition thn els =>
      every_binary_optimized g condition && statement_optimized g thn &&
      match els with Some s => statement_optimized g s | None => true end
  | WhileStatement condition body =>
      every_binary_optimized g condition && statement_optimized g body
  | BreakStatement | ContinueStatement => true
  | ReturnStatement value => optional_optimized g value
  | ExpressionStatement expression => every_binary_optimized g expression
  end.

(** Number of return statements in a statement. *)
Fixpoint returns (s : Statement) : nat :=
  match s with
  | Block statements =>
      fold_right (fun s acc => returns s + acc)%nat 0%nat statements
  | IfStatement _ thn els =>
      (returns thn + match els with Some s => returns s | None => 0 end)%nat
  | WhileStatement _ body => returns body
  | ReturnStatement _ => 1%nat
  | _ => 0%nat
  end.

(** [g'] extends the output of [g] by complete lines whose stack-pointer
    adjustments add up to [d]. *)
Definition Lowered (g g' : CodeGen) (d : Z) : Prop :=
  exists ls, output g' = output g +:+ unlines ls /\
             forallb nlfree ls = true /\ sum_adjust ls = d.

(** Expression lowering changes nothing but the output buffer. *)
Definition only_output (f : CodeGen -> CodeGen) : Prop :=
  forall g, f g = set_output (output (f g)) g.

(** Statement lowering keeps the optimization switch and the
    known-constants table. *)
Definition same_settings (g g' : CodeGen) : Prop :=
  optimizationsEnabled g' = optimizationsEnabled g /\
  constantValues g' = constantValues g.

Definition keeps_settings (f : CodeGen -> CodeGen) : Prop :=
  forall g, same_settings g (f g).

(** ** Vocabulary of the further properties *)

(** [g'] extends the output of [g]. *)
Definition Extends (g g' : CodeGen) : Prop :=
  exists code, output g' = output g +:+ code.

Definition appends (f : CodeGen -> CodeGen) : Prop :=
  forall g, Extends g (f g).

(** The fields a statement never writes. *)
Definition same_static (g g' : CodeGen) : Prop :=
  functions g' = functions g /\
  currentFunction g' = currentFunction g /\
  optimizationsEnabled g' = optimizationsEnabled g /\
  constantValues g' = constantValues g.

Definition keeps_static (f : CodeGen -> CodeGen) : Prop :=
  forall g, same_static g (f g).

(** Number of variable declarations in a statement, nested ones included. *)
Fixpoint declarations (s : Statement) : nat :=
  match s with
  | VariableDeclaration _ _ => 1%nat
  | Block statements =>
      fold_right (fun s acc => declarations s + acc)%nat 0%nat statements
  | IfStatement _ thn els =>
      (declarations thn +
       match els with Some s => declarations s | None => 0 end)%nat
  | WhileStatement _ body => declarations body
  | _ => 0%nat
  end.

(** [name] is declared somewhere in the statement. *)
Fixpoint declares (name : string) (s : Statement) : bool :=
  match s with
  | VariableDeclaration declared _ => String.eqb declared name
  | Block statements => existsb (declares name) statements
  | IfStatement _ thn els =>
      declares name thn ||
      match els with Some s => declares name s | None => false end
  | WhileStatement _ body => declares name body
  | _ => false
  end.

(** [f] never reads the signature table: it commutes with replacing it. *)
Definition ignores_functions (f : CodeGen -> CodeGen) : Prop :=
  forall table g, f (set_functions table g) = set_functions table (f g).

Definition set_constantValues (consts : gmap string Z) (g : CodeGen)
  : CodeGen :=
  {| output := output g; functions := functions g;
     stackOffset := stackOffset g; labelCounter := labelCounter g;
     optimizationsEnabled := optimizationsEnabled g;
     constantValues := consts;
     localVariables := localVariables g;
     currentFunction := currentFunction g |}.

(** With optimizations disabled [f] never reads the known-constants table:
    it commutes with replacing it. *)
Definition ignores_constants (f : CodeGen -> CodeGen) : Prop :=
  forall consts g,
    optimizationsEnabled g = false ->
    f (set_constantValues consts g) = set_constantValues consts (f g).

(** The word a binary operator yields on two [int] operands: arithmetic
    wraps around, a comparison yields 1 or 0.  Division and the logical
    operators are left out. *)
Definition expected_word (op : BinaryOp) (a b : Z) : option Z :=
  match op with
  | ADD => Some (Int.add a b)
  | SUB => Some (Int.sub a b)
  | MUL => Some (Int.mul a b)
  | LT => Some (bool_word (a <? b))
  | LE => Some (bool_word (a <=? b))
  | GT => Some (bool_word (a >? b))
  | GE => Some (bool_word (a >=? b))
  | EQ => Some (bool_word (a =? b))
  | NE => Some (bool_word (negb (a =? b)))
  | _ => None
  end.

(** The word a unary operator yields on an [int] operand. *)
Definition expected_unary_word (op : UnaryOp) (a : Z) : Z :=
  match op with
  | PLUS => a
  | MINUS => Int.sub 0 a
  | NOT => bool_word (a =? 0)
  end.

(** The machine after the pushes of two literals, and after the pops that
    start the non-folded lowering of a binary node. *)
Definition pushed_two (a b : Z) : Machine :=
  store 4088 b (set_sp 4088 (set_t0 b
    (store 4092 a (set_sp 4092 (set_t0 a machine0))))).

Definition popped_two (a b : Z) : Machine :=
  set_t0 a (set_sp 4092 (set_t1 b (pushed_two a b))).

(** The machine after the push of one literal. *)
Definition pushed_one (a : Z) : Machine :=
  store 4092 a (set_sp 4092 (set_t0 a machine0)).

(** No colon in the string. *)
Fixpoint colon_free (s : string) : bool :=
  match s with
  | EmptyString => true
  | String c s' => negb (Ascii.eqb c ":") && colon_free s'
  end.

(** ** Label definitions in the emitted text

    The labels [newLabel] hands out are not stored; they show in the text,
    each as the line that defines it.  No instruction line starts with one
    of the four prefixes, so a line that does is the definition of an
    issued label. *)

Definition starts_with (p s : string) : bool :=
  match after_prefix p s with
  | Some _ => true
  | None => false
  end.

Definition label_definition (line : string) : bool :=
  existsb (fun prefix => starts_with prefix line) label_prefixes.

Definition label_definitions (ls : list string) : list string :=
  List.filter label_definition ls.

(** The line [emitLabel] writes for the label [newLabel prefix] returns at
    counter value [c]. *)
Definition label_line (d : string * Z) : string :=
  (fst d +:+ to_string (snd d)) +:+ ":".

(** The labels a statement defines, as prefix and counter value, in the
    order of their definition lines, when lowering starts at counter value
    [c]. *)
Fixpoint issued (s : Statement) (c : Z) : list (string * Z) :=
  match s with
  | Block statements =>
      fold_right
        (fun s rest c => issued s c ++ rest (c + Z.of_nat (label_calls s)))
        (fun _ => []) statements c
  | IfStatement _ thn els =>
      issued thn (c + 2) ++ [("else"%string, c)] ++
      match els with
      | Some s => issued s (c + 2 + Z.of_nat (label_calls thn))
      | None => []
      end ++ [("endif"%string, c + 1)]
  | WhileStatement _ body =>
      [("loop"%string, c)] ++ issued body (c + 2) ++ [("endloop"%string, c + 1)]
  | _ => []
  end.

Definition issued_unit (functions : list FunctionDefinition) (c : Z)
  : list (string * Z) :=
  fold_right
    (fun f rest c =>
       issued (fd_body f) c ++ rest (c + Z.of_nat (label_calls (fd_body f))))
    (fun _ => []) functions c.

(** [g'] extends the output of [g] by complete lines, among which the label
    definitions are those of [defs], in order. *)
Definition Defines (g g' : CodeGen) (defs : list (string * Z)) : Prop :=
  exists ls, output g' = output g +:+ unlines ls /\
             forallb nlfree ls = true /\
             label_definitions ls = map label_line defs.

(** Function names are single-line and none starts with a label prefix;
    the names in the bodies are single-line. *)
Definition unit_names_ok (unit : CompilationUnit) : bool :=
  forallb (fun f => nlfree (fd_name f) && negb (label_definition (fd_name f))
                    && statement_names_ok (fd_body f))
    (cu_functions unit).

(** The numbers of [ns] lie in the interval from [lo] to [hi], [hi] left
    out. *)
Definition within (lo hi : Z) (ns : list Z) : Prop :=
  List.Forall (fun n => lo <= n < hi) ns.

(** Every entry of [defs] carries one of the four prefixes. *)
Definition prefixed (defs : list (string * Z)) : Prop :=
  List.Forall (fun d => In (fst d) label_prefixes) defs.

(** [defs] holds [k] labels, numbered with pairwise distinct counter values
    from [lo] to [lo + k - 1]. *)
Definition numbered (lo : Z) (k : nat) (defs : list (string * Z)) : Prop :=
  within lo (lo + Z.of_nat k) (map snd defs) /\
  List.NoDup (map snd defs) /\
  prefixed defs /\
  length defs = k.

(** * Part III: supporting lemmas *)

(** ** Machine integers: facts *)

Lemma wrap_in_range (z : Z) : Int.in_range z -> Int.wrap z = z.
Proof.
  unfold Int.in_range, Int.wrap, Int.int_min, Int.int_max, Int.modulus.
  intros H. rewrite Z.mod_small by lia. lia.
Qed.

(** ** Strings *)

Lemma append_assoc (a b c : string) : (a +:+ b) +:+ c = a +:+ (b +:+ c).
Proof.
  induction a as [|x a IH]; [reflexivity|].
  cbv [String.append] in *. fold String.append in *. now rewrite IH.
Qed.

Lemma append_nil_r (a : string) : a +:+ EmptyString = a.
Proof.
  induction a as [|x a IH]; [reflexivity|].
  cbv [String.append] in *. fold String.append in *. now rewrite IH.
Qed.

Lemma append_cons (x : ascii) (a b : string) :
  String x a +:+ b = String x (a +:+ b).
Proof. reflexivity. Qed.

Lemma unlines_app (xs ys : list string) :
  unlines (xs ++ ys) = unlines xs +:+ unlines ys.
Proof.
  induction xs as [|x xs IH]; [reflexivity|].
  cbn [unlines fold_right app]. fold (unlines (xs ++ ys)). fold (unlines xs).
  now rewrite IH, !append_assoc.
Qed.

Lemma unlines_one (l : string) : unlines [l] = l +:+ newline.
Proof. cbn [unlines fold_right]. now rewrite append_nil_r. Qed.

(** ** Decimal numerals *)

Lemma to_int_proper (z : Z) :
  Z.to_int z <> Decimal.Pos Decimal.Nil /\ Z.to_int z <> Decimal.Neg Decimal.Nil.
Proof.
  destruct z as [|p|p]; cbn; split; try discriminate;
    intros [= H]; now apply (DecimalPos.Unsigned.to_uint_nonnil p).
Qed.

Lemma of_string_to_string (z : Z) : of_string (to_string z) = Some z.
Proof.
  unfold of_string, to_string.
  destruct (to_int_proper z) as [Hp Hn].
  rewrite NilZero.isi by assumption. cbn [option_map].
  now rewrite DecimalZ.of_to.
Qed.

Lemma to_string_inj (a b : Z) : to_string a = to_string b -> a = b.
Proof.
  intros H. apply (f_equal of_string) in H.
  rewrite !of_string_to_string in H. now injection H.
Qed.

Lemma uint_all_digits (d : Decimal.uint) :
  all_digits (NilEmpty.string_of_uint d) = true.
Proof. induction d; cbn [NilEmpty.string_of_uint all_digits]; auto. Qed.

Lemma to_string_all_digits (z : Z) : 0 <= z -> all_digits (to_string z) = true.
Proof.
  unfold to_string. destruct z as [|p|p]; intros Hz; [reflexivity| |lia].
  cbn [Z.to_int NilZero.string_of_int].
  unfold NilZero.string_of_uint.
  destruct (Pos.to_uint p) eqn:E; try reflexivity; rewrite <- E;
    apply uint_all_digits.
Qed.

Lemma all_digits_nlfree (s : string) : all_digits s = true -> nlfree s = true.
Proof.
  induction s as [|c s IH]; [reflexivity|]. cbn [all_digits nlfree].
  intros [Hc Hs]%andb_true_iff. rewrite (IH Hs), andb_true_r.
  unfold is_newline. destruct (Ascii.eqb_spec c (ascii_of_nat 10)) as [->|];
    [discriminate Hc | reflexivity].
Qed.

Lemma nlfree_app (a b : string) :
  nlfree (a +:+ b) = nlfree a && nlfree b.
Proof.
  induction a as [|c a IH]; [reflexivity|].
  rewrite append_cons. cbn [nlfree]. now rewrite IH, andb_assoc.
Qed.

Lemma to_string_nlfree (z : Z) : nlfree (to_string z) = true.
Proof.
  destruct (Z_le_gt_dec 0 z) as [Hz|Hz].
  - now apply all_digits_nlfree, to_string_all_digits.
  - destruct z as [|p|p]; try lia.
    change (to_string (Z.neg p)) with ("-" +:+ to_string (Z.pos p)).
    rewrite nlfree_app. cbn [andb nlfree is_newline].
    apply all_digits_nlfree, to_string_all_digits. lia.
Qed.

(** Distinct counters give distinct names under digit-free prefixes. *)
Lemma digits_suffix_inj (p1 p2 d1 d2 : string) :
  digit_free p1 = true -> digit_free p2 = true ->
  all_digits d1 = true -> all_digits d2 = true ->
  p1 +:+ d1 = p2 +:+ d2 -> p1 = p2 /\ d1 = d2.
Proof.
  revert p2. induction p1 as [|x p1 IH]; intros [|y p2] Hp1 Hp2 Hd1 Hd2 H.
  - now split.
  - exfalso. rewrite append_cons in H. change ("" +:+ d1) with d1 in H.
    subst d1.
    cbn [all_digits digit_free] in *.
    apply andb_true_iff in Hd1 as [Hy _], Hp2 as [Hny _].
    now rewrite Hy in Hny.
  - exfalso. rewrite append_cons in H. change ("" +:+ d2) with d2 in H.
    subst d2.
    cbn [all_digits digit_free] in *.
    apply andb_true_iff in Hd2 as [Hx _], Hp1 as [Hnx _].
    now rewrite Hx in Hnx.
  - rewrite !append_cons in H. injection H as -> H.
    cbn [digit_free] in *.
    apply andb_true_iff in Hp1 as [_ Hp1], Hp2 as [_ Hp2].
    destruct (IH p2 Hp1 Hp2 Hd1 Hd2 H) as [-> ->]. now split.
Qed.

Lemma label_inj (p1 p2 : string) (c1 c2 : Z) :
  digit_free p1 = true -> digit_free p2 = true -> 0 <= c1 -> 0 <= c2 ->
  p1 +:+ to_string c1 = p2 +:+ to_string c2 -> p1 = p2 /\ c1 = c2.
Proof.
  intros Hp1 Hp2 Hc1 Hc2 H.
  destruct (digits_suffix_inj p1 p2 _ _ Hp1 Hp2
              (to_string_all_digits c1 Hc1) (to_string_all_digits c2 Hc2) H)
    as [-> Hd].
  split; [reflexivity | now apply to_string_inj].
Qed.

(** ** Lines *)

Lemma lines_line (l rest : string) :
  nlfree l = true -> lines (l +:+ newline +:+ rest) = l :: lines rest.
Proof.
  induction l as [|c l IH]; intros Hl.
  - reflexivity.
  - rewrite append_cons. cbn [lines nlfree] in *.
    apply andb_true_iff in Hl as [Hc Hl]. apply negb_true_iff in Hc.
    rewrite Hc, (IH Hl). reflexivity.
Qed.

Lemma lines_unlines (ls : list string) :
  forallb nlfree ls = true -> lines (unlines ls) = ls.
Proof.
  induction ls as [|l ls IH]; [reflexivity|]. cbn [forallb].
  intros [Hl Hls]%andb_true_iff.
  cbn [unlines fold_right]. fold (unlines ls).
  now rewrite (lines_line _ _ Hl), (IH Hls).
Qed.

Lemma sum_adjust_app (xs ys : list string) :
  sum_adjust (xs ++ ys) = sum_adjust xs + sum_adjust ys.
Proof.
  induction xs as [|x xs IH]; [reflexivity|].
  cbn [sum_adjust fold_right app] in *. fold (sum_adjust (xs ++ ys)).
  fold (sum_adjust xs). rewrite IH. lia.
Qed.

Lemma after_prefix_app (p s : string) : after_prefix p (p +:+ s) = Some s.
Proof.
  induction p as [|c p IH]; [reflexivity|].
  rewrite append_cons. cbn [after_prefix]. now rewrite Ascii.eqb_refl.
Qed.

Lemma sp_adjust_addi (k : Z) :
  sp_adjust ("addi sp, sp, " +:+ to_string k) = k.
Proof.
  unfold sp_adjust. now rewrite after_prefix_app, of_string_to_string.
Qed.

(** ** Emission lemmas *)

Lemma set_output_id (g : CodeGen) : set_output (output g) g = g.
Proof. now destruct g. Qed.

(** Rewrites a chain of [emit]s into one appended block of lines. *)
Ltac emit_block :=
  unfold emit, emitLabel, set_output;
  cbn [output functions stackOffset labelCounter optimizationsEnabled
       constantValues localVariables currentFunction];
  f_equal; cbn [unlines fold_right];
  rewrite ?append_assoc, ?append_nil_r; try reflexivity.

Lemma push_immediate_emitted (v : Z) (g : CodeGen) :
  emit "sw t0, 0(sp)"
    (emit "addi sp, sp, -4" (emit ("li t0, " +:+ to_string v) g)) =
  set_output (output g +:+ unlines (push_immediate v)) g.
Proof. unfold push_immediate. emit_block. Qed.

(** ** Induction over the syntax tree *)

Lemma Expression_ind_all (P : Expression -> Prop) :
  (forall value, P (NumberLiteral value)) ->
  (forall name, P (Identifier name)) ->
  (forall op operand, P operand -> P (UnaryExpression op operand)) ->
  (forall op lhs rhs, P lhs -> P rhs -> P (BinaryExpression op lhs rhs)) ->
  (forall f args, Forall P args -> P (FunctionCall f args)) ->
  forall e, P e.
Proof.
  intros Hnum Hid Hun Hbin Hcall. fix IH 1.
  intros [value|name|op operand|op lhs rhs|f args].
  - apply Hnum.
  - apply Hid.
  - apply Hun, IH.
  - apply Hbin; apply IH.
  - apply Hcall. induction args as [|a args IHargs]; constructor.
    + apply IH.
    + exact IHargs.
Qed.

Lemma Statement_ind_all (P : Statement -> Prop) :
  (forall name init, P (VariableDeclaration name init)) ->
  (forall variable value, P (AssignmentStatement variable value)) ->
  (forall statements, Forall P statements -> P (Block statements)) ->
  (forall condition thn els,
      P thn -> (forall s, els = Some s -> P s) ->
      P (IfStatement condition thn els)) ->
  (forall condition body, P body -> P (WhileStatement condition body)) ->
  P BreakStatement ->
  P ContinueStatement ->
  (forall value, P (ReturnStatement value)) ->
  (forall expression, P (ExpressionStatement expression)) ->
  forall s, P s.
Proof.
  intros Hdecl Hassign Hblock Hif Hwhile Hbreak Hcont Hret Hexpr. fix IH 1.
  intros [name init|variable value|statements|condition thn els
         |condition body| | |value|expression].
  - apply Hdecl.
  - apply Hassign.
  - apply Hblock. induction statements as [|s ss IHss]; constructor.
    + apply IH.
    + exact IHss.
  - apply Hif; [apply IH|]. destruct els as [s0|]; intros s Hs.
    + injection Hs as <-. apply IH.
    + discriminate Hs.
  - apply Hwhile, IH.
  - apply Hbreak.
  - apply Hcont.
  - apply Hret.
  - apply Hexpr.
Qed.

(** ** What a visit leaves untouched *)

Lemma only_output_skip : only_output skip.
Proof. intros g. symmetry. apply set_output_id. Qed.

Lemma only_output_emit (l : string) : only_output (emit l).
Proof. intros g. reflexivity. Qed.

Lemma only_output_seq (f k : CodeGen -> CodeGen) :
  only_output f -> only_output k -> only_output (f >>> k).
Proof.
  intros Hf Hk g. cbv beta. rewrite (Hk (f g)) at 1. now rewrite (Hf g) at 2.
Qed.

Lemma only_output_visitAll {A : Type} (visit : A -> CodeGen -> CodeGen)
    (xs : list A) :
  Forall (fun x => only_output (visit x)) xs -> only_output (visitAll visit xs).
Proof.
  induction 1 as [|x xs Hx _ IH].
  - apply only_output_skip.
  - cbn [visitAll]. now apply only_output_seq.
Qed.

Ltac only_output_chain :=
  repeat first [ assumption
               | apply only_output_emit
               | apply only_output_skip
               | apply only_output_seq ].

Lemma only_output_optimizer (visitLeft : CodeGen -> CodeGen)
    (op : BinaryOp) (lhs rhs : Expression) :
  only_output visitLeft ->
  only_output (optimizeConstantFolding visitLeft op lhs rhs).
Proof.
  intros Hl g. unfold optimizeConstantFolding.
  repeat match goal with
         | |- context [if ?b then _ else _] => destruct b
         | |- context [match ?o with ADD => _ | _ => _ end] => destruct o
         | |- context [match ?o with Some _ => _ | None => _ end] =>
             destruct o
         end;
    first [ symmetry; apply set_output_id | apply Hl | reflexivity ].
Qed.

Lemma only_output_visitExpression (e : Expression) :
  only_output (visitExpression e).
Proof.
  induction e as [value|name|op operand IH|op lhs rhs IHl IHr|f args IH]
    using Expression_ind_all.
  - intros g. reflexivity.
  - intros g. cbn [visitExpression]. unfold visitIdentifier.
    now destruct (localVariables g !! name).
  - cbn [visitExpression].
    assert (only_output (emitUnaryOp op))
      by (destruct op; cbn [emitUnaryOp]; only_output_chain).
    only_output_chain.
  - intros g. cbn [visitExpression].
    destruct (optimizationsEnabled g).
    + now apply only_output_optimizer.
    + assert (Hop : only_output (emitBinaryOp op))
        by (destruct op; cbn [emitBinaryOp]; only_output_chain).
      revert g.
      change (only_output
                (visitExpression lhs >>> visitExpression rhs >>>
                 emit "lw t1, 0(sp)" >>> emit "addi sp, sp, 4" >>>
                 emit "lw t0, 0(sp)" >>> emitBinaryOp op >>>
                 emit "sw t0, 0(sp)")).
      only_output_chain.
  - cbn [visitExpression].
    assert (only_output (visitAll visitExpression args))
      by now apply only_output_visitAll.
    only_output_chain.
Qed.

Lemma visitExpression_labelCounter (e : Expression) (g : CodeGen) :
  labelCounter (visitExpression e g) = labelCounter g.
Proof. now rewrite (only_output_visitExpression e g). Qed.

Lemma visitExpression_settings (e : Expression) (g : CodeGen) :
  optimizationsEnabled (visitExpression e g) = optimizationsEnabled g /\
  constantValues (visitExpression e g) = constantValues g.
Proof. now rewrite (only_output_visitExpression e g). Qed.

Lemma same_settings_refl (g : CodeGen) : same_settings g g.
Proof. now split. Qed.

Lemma same_settings_step (f : CodeGen -> CodeGen) (g g0 : CodeGen) :
  keeps_settings f -> same_settings g g0 -> same_settings g (f g0).
Proof.
  intros Hf [E1 E2]. destruct (Hf g0) as [E3 E4].
  split; congruence.
Qed.

Lemma keeps_settings_only_output (f : CodeGen -> CodeGen) :
  only_output f -> keeps_settings f.
Proof. intros Hf g. rewrite (Hf g). now split. Qed.

Lemma keeps_settings_visitAll {A : Type} (visit : A -> CodeGen -> CodeGen)
    (xs : list A) :
  Forall (fun x => keeps_settings (visit x)) xs ->
  keeps_settings (visitAll visit xs).
Proof.
  induction 1 as [|x xs Hx _ IH]; intros g.
  - apply same_settings_refl.
  - cbn [visitAll]. apply same_settings_step; [exact IH | apply Hx].
Qed.

Lemma keeps_settings_emit (l : string) : keeps_settings (emit l).
Proof. intros g. now split. Qed.

Lemma keeps_settings_emitLabel (l : string) : keeps_settings (emitLabel l).
Proof. intros g. now split. Qed.

Lemma keeps_settings_skip : keeps_settings skip.
Proof. intros g. now split. Qed.

Lemma keeps_settings_visitExpression (e : Expression) :
  keeps_settings (visitExpression e).
Proof. apply keeps_settings_only_output, only_output_visitExpression. Qed.

Lemma keeps_settings_epilogue : keeps_settings generateEpilogue.
Proof. intros g. now split. Qed.

(** Peels the visits of a chain one by one, down to the state the chain
    started from. *)
Ltac settings_chain :=
  repeat first
    [ apply same_settings_refl
    | (split; reflexivity)
    | apply same_settings_step;
      [ first [ assumption
              | apply keeps_settings_emit
              | apply keeps_settings_emitLabel
              | apply keeps_settings_visitExpression
              | apply keeps_settings_epilogue
              | apply keeps_settings_skip ] | ] ].

Lemma keeps_settings_visitStatement (s : Statement) :
  keeps_settings (visitStatement s).
Proof.
  induction s as [name init|variable value|statements IH
                 |condition thn els IHt IHe|condition body IH| | |value
                 |expression] using Statement_ind_all; intros g.
  - cbn [visitStatement]. unfold visitVariableDeclaration.
    destruct init; settings_chain.
  - cbn [visitStatement]. unfold visitAssignmentStatement.
    destruct (localVariables _ !! variable); settings_chain.
  - cbn [visitStatement]. now apply keeps_settings_visitAll.
  - cbn [visitStatement newLabel].
    assert (keeps_settings
              match els with
              | Some s => visitStatement s
              | None => skip
              end) as Hels
      by (destruct els as [s|];
          [now apply IHe | apply keeps_settings_skip]).
    settings_chain.
  - cbn [visitStatement newLabel]. settings_chain.
  - now split.
  - now split.
  - cbn [visitStatement]. unfold visitReturnStatement.
    destruct value; settings_chain.
  - cbn [visitStatement]. settings_chain.
Qed.

(** ** The optimizer, case by case *)

Section Folding.

Variable g : CodeGen.
Hypothesis enabled : optimizationsEnabled g = true.

Lemma visit_binary_enabled (op : BinaryOp) (lhs rhs : Expression) :
  visitExpression (BinaryExpression op lhs rhs) g =
  optimizeConstantFolding (visitExpression lhs) op lhs rhs g.
Proof. cbn [visitExpression]. now rewrite enabled. Qed.

Lemma fold_success (op : BinaryOp) (lhs rhs : Expression) (v : Z) :
  isConstantExpression (Some lhs) g = true ->
  isConstantExpression (Some rhs) g = true ->
  arith_value op (evaluateConstantExpression (Some lhs) g)
                 (evaluateConstantExpression (Some rhs) g) = Some v ->
  fold_undefined op lhs rhs g = false ->
  visitExpression (BinaryExpression op lhs rhs) g =
  set_output (output g +:+ unlines (push_immediate (Int.wrap v))) g.
Proof.
  intros Hl Hr Hv Hd. rewrite visit_binary_enabled.
  unfold fold_undefined in Hd. rewrite Hl, Hr in Hd. cbn [andb] in Hd.
  unfold optimizeConstantFolding. rewrite enabled, Hl, Hr. cbn [negb andb].
  destruct op; cbn [arith_value] in Hv; try discriminate;
    try (injection Hv as <-; apply push_immediate_emitted);
    unfold Int.div, Int.rem; rewrite Hd;
    destruct (evaluateConstantExpression (Some rhs) g =? 0);
    try discriminate; cbn [negb orb];
    injection Hv as <-; apply push_immediate_emitted.
Qed.

Lemma nothing_applies (op : BinaryOp) (lhs rhs : Expression) :
  full_fold_applies op lhs rhs g = false ->
  simplification_matches op rhs g = false ->
  visitExpression (BinaryExpression op lhs rhs) g = g.
Proof.
  intros Hf Hs. rewrite visit_binary_enabled.
  unfold optimizeConstantFolding, full_fold_applies,
    simplification_matches in *.
  rewrite enabled. cbn [negb].
  destruct (isConstantExpression (Some lhs) g),
    (isConstantExpression (Some rhs) g); cbn [andb] in *;
    try reflexivity.
  - destruct op; cbn [arith_value] in Hf; try discriminate;
      try reflexivity;
      destruct (evaluateConstantExpression (Some rhs) g =? 0);
      try discriminate; reflexivity.
  - destruct op; try reflexivity.
    + now rewrite Hs.
    + apply orb_false_iff in Hs as [-> ->]. reflexivity.
Qed.

Lemma simplify_mul_zero (x rhs : Expression) :
  isConstantExpression (Some rhs) g = true ->
  evaluateConstantExpression (Some rhs) g = 0 ->
  visitExpression (BinaryExpression MUL x rhs) g =
  set_output (output g +:+ unlines (push_immediate 0)) g.
Proof.
  intros Hr Hz.
  destruct (isConstantExpression (Some x) g) eqn:Hx.
  - rewrite (fold_success MUL x rhs
               (evaluateConstantExpression (Some x) g * 0) Hx Hr).
    + now rewrite Z.mul_0_r.
    + cbn [arith_value]. now rewrite Hz.
    + unfold fold_undefined. apply andb_false_r.
  - rewrite visit_binary_enabled.
    unfold optimizeConstantFolding. rewrite enabled, Hx, Hr, Hz.
    cbn [negb andb Z.eqb]. unfold push_immediate. emit_block.
Qed.

Lemma simplify_identity (op : BinaryOp) (x rhs : Expression) :
  isConstantExpression (Some x) g = false ->
  isConstantExpression (Some rhs) g = true ->
  (op = ADD /\ evaluateConstantExpression (Some rhs) g = 0) \/
  (op = MUL /\ evaluateConstantExpression (Some rhs) g = 1) ->
  visitExpression (BinaryExpression op x rhs) g = visitExpression x g.
Proof.
  intros Hx Hr Hop. rewrite visit_binary_enabled.
  unfold optimizeConstantFolding. rewrite enabled, Hx, Hr. cbn [negb andb].
  destruct Hop as [[-> ->] | [-> ->]]; reflexivity.
Qed.

End Folding.

(** ** Label generator *)

Lemma int_add_exact (a b : Z) : Int.in_range (a + b) -> Int.add a b = a + b.
Proof. apply wrap_in_range. Qed.

Lemma newLabel_counter (prefix : string) (g : CodeGen) :
  0 <= labelCounter g < Int.int_max ->
  labelCounter (snd (newLabel prefix g)) = labelCounter g + 1.
Proof.
  intros H. cbn [newLabel snd labelCounter set_labelCounter].
  apply int_add_exact. unfold Int.in_range, Int.int_min, Int.int_max in *. lia.
Qed.

(** The names of a series of calls all carry counter values from the
    starting value on. *)
Lemma newLabels_from (prefixes : list string) (g : CodeGen) :
  0 <= labelCounter g ->
  labelCounter g + Z.of_nat (length prefixes) <= Int.int_max ->
  labelCounter (snd (newLabels prefixes g))
    = labelCounter g + Z.of_nat (length prefixes) /\
  forall label, In label (fst (newLabels prefixes g)) ->
    exists prefix c, In prefix prefixes /\ labelCounter g <= c /\
                     label = prefix +:+ to_string c.
Proof.
  revert g. induction prefixes as [|p ps IH]; intros g Hc Hb.
  - cbn [newLabels snd fst length]. split; [lia | intros ? []].
  - cbn [length] in Hb. cbn [newLabels].
    destruct (newLabel p g) as [label g1] eqn:E1.
    assert (Hg1 : labelCounter g1 = labelCounter g + 1).
    { change g1 with (snd (label, g1)). rewrite <- E1.
      apply newLabel_counter. lia. }
    assert (Hlabel : label = p +:+ to_string (labelCounter g)).
    { change label with (fst (label, g1)). now rewrite <- E1. }
    destruct (IH g1 ltac:(lia) ltac:(lia)) as [IHc IHn].
    destruct (newLabels ps g1) as [labels g2]. cbn [fst snd] in *.
    split; [cbn [length]; lia|].
    intros l [<- | Hl].
    + exists p, (labelCounter g). repeat split; [now left | lia | assumption].
    + destruct (IHn l Hl) as (q & c & Hq & Hc' & ->).
      exists q, c. repeat split; [now right | lia].
Qed.

Lemma newLabels_NoDup (prefixes : list string) (g : CodeGen) :
  forallb digit_free prefixes = true ->
  0 <= labelCounter g ->
  labelCounter g + Z.of_nat (length prefixes) <= Int.int_max ->
  List.NoDup (fst (newLabels prefixes g)).
Proof.
  revert g. induction prefixes as [|p ps IH]; intros g Hp Hc Hb.
  - constructor.
  - cbn [forallb] in Hp. apply andb_true_iff in Hp as [Hp Hps].
    cbn [length] in Hb. cbn [newLabels].
    destruct (newLabel p g) as [label g1] eqn:E1.
    assert (Hg1 : labelCounter g1 = labelCounter g + 1).
    { change g1 with (snd (label, g1)). rewrite <- E1.
      apply newLabel_counter. lia. }
    assert (Hlabel : label = p +:+ to_string (labelCounter g)).
    { change label with (fst (label, g1)). now rewrite <- E1. }
    pose proof (IH g1 Hps ltac:(lia) ltac:(lia)) as IHnd.
    destruct (newLabels_from ps g1 ltac:(lia) ltac:(lia)) as [_ Hfrom].
    destruct (newLabels ps g1) as [labels g2]. cbn [fst snd] in *.
    constructor; [|assumption].
    intros Hin. destruct (Hfrom label Hin) as (q & c & Hq & Hc' & Heq).
    rewrite Hlabel in Heq.
    assert (Hqd : digit_free q = true).
    { rewrite forallb_forall in Hps. now apply Hps. }
    destruct (label_inj p q (labelCounter g) c Hp Hqd Hc ltac:(lia) Heq).
    lia.
Qed.

(** Statements advance the counter by one per call and never set it back. *)
Lemma visitAll_counter (statements : list Statement) :
  Forall (fun s => forall g, 0 <= labelCounter g ->
            labelCounter g + Z.of_nat (label_calls s) <= Int.int_max ->
            labelCounter (visitStatement s g)
              = labelCounter g + Z.of_nat (label_calls s)) statements ->
  forall g, 0 <= labelCounter g ->
    labelCounter g + Z.of_nat (label_calls (Block statements)) <= Int.int_max ->
    labelCounter (visitAll visitStatement statements g)
      = labelCounter g + Z.of_nat (label_calls (Block statements)).
Proof.
  induction 1 as [|s ss Hs _ IH]; intros g Hc Hb.
  - cbn [visitAll label_calls fold_right]. unfold skip. lia.
  - cbn [label_calls fold_right] in *. cbn [visitAll].
    rewrite IH; rewrite ?Hs; lia.
Qed.

Lemma visitStatement_counter (s : Statement) (g : CodeGen) :
  0 <= labelCounter g ->
  labelCounter g + Z.of_nat (label_calls s) <= Int.int_max ->
  labelCounter (visitStatement s g) = labelCounter g + Z.of_nat (label_calls s).
Proof.
  revert g.
  induction s as [name init|variable value|statements IH
                 |condition thn els IHt IHe|condition body IH| | |value
                 |expression] using Statement_ind_all; intros g Hc Hb.
  - cbn [visitStatement label_calls]. unfold visitVariableDeclaration.
    destruct init;
      cbn [labelCounter emit set_output set_stackOffset set_localVariables];
      rewrite ?visitExpression_labelCounter; lia.
  - cbn [visitStatement label_calls]. unfold visitAssignmentStatement.
    destruct (localVariables _ !! variable);
      cbn [labelCounter emit set_output];
      rewrite ?visitExpression_labelCounter; lia.
  - cbn [visitStatement]. now apply visitAll_counter.
  - cbn [label_calls] in Hb.
    cbn [visitStatement newLabel label_calls labelCounter set_labelCounter].
    rewrite !int_add_exact
      by (unfold Int.in_range, Int.int_min, Int.int_max in *; lia).
    set (g3 := emit _ (emit _ (emit _ (visitExpression condition _)))).
    assert (H3 : labelCounter g3 = labelCounter g + 2).
    { subst g3. cbn [labelCounter emit set_output].
      rewrite visitExpression_labelCounter. cbn [labelCounter set_labelCounter].
      lia. }
    set (g4 := emitLabel _ (emit _ (visitStatement thn g3))).
    assert (H4 : labelCounter g4
                 = labelCounter g + 2 + Z.of_nat (label_calls thn)).
    { subst g4. cbn [labelCounter emit emitLabel set_output].
      rewrite IHt; lia. }
    cbn [labelCounter emitLabel set_output].
    destruct els as [s|].
    + rewrite (IHe s eq_refl); lia.
    + unfold skip. lia.
  - cbn [label_calls] in Hb.
    cbn [visitStatement newLabel label_calls labelCounter set_labelCounter].
    rewrite !int_add_exact
      by (unfold Int.in_range, Int.int_min, Int.int_max in *; lia).
    set (g3 := emit _ (emit _ (emit _ (visitExpression condition _)))).
    assert (H3 : labelCounter g3 = labelCounter g + 2).
    { subst g3. cbn [labelCounter emit set_output].
      rewrite visitExpression_labelCounter.
      cbn [labelCounter emitLabel set_output set_labelCounter]. lia. }
    cbn [labelCounter emit emitLabel set_output].
    rewrite IH; lia.
  - cbn [label_calls]. cbn [visitStatement labelCounter emit set_output]. lia.
  - cbn [label_calls]. cbn [visitStatement labelCounter emit set_output]. lia.
  - cbn [visitStatement label_calls]. unfold visitReturnStatement.
    destruct value;
      cbn [labelCounter emit set_output generateEpilogue];
      rewrite ?visitExpression_labelCounter; lia.
  - cbn [visitStatement label_calls labelCounter emit set_output].
    rewrite visitExpression_labelCounter. lia.
Qed.

Lemma visitFunctionDefinition_counter (f : FunctionDefinition) (g : CodeGen) :
  0 <= labelCounter g ->
  labelCounter g + Z.of_nat (label_calls (fd_body f)) <= Int.int_max ->
  labelCounter (visitFunctionDefinition f g)
    = labelCounter g + Z.of_nat (label_calls (fd_body f)).
Proof.
  intros Hc Hb. unfold visitFunctionDefinition.
  cbn [labelCounter emit set_output generateEpilogue].
  rewrite visitStatement_counter; [reflexivity|exact Hc|exact Hb].
Qed.

Lemma visitCompilationUnit_counter (unit : CompilationUnit) (g : CodeGen) :
  0 <= labelCounter g ->
  labelCounter g + Z.of_nat (label_calls_unit unit) <= Int.int_max ->
  labelCounter (visitCompilationUnit unit g)
    = labelCounter g + Z.of_nat (label_calls_unit unit).
Proof.
  unfold visitCompilationUnit, label_calls_unit.
  revert g. induction (cu_functions unit) as [|f fs IH]; intros g Hc Hb.
  - cbn [visitAll fold_right]. unfold skip. lia.
  - cbn [fold_right] in *. cbn [visitAll].
    rewrite IH; rewrite ?visitFunctionDefinition_counter; lia.
Qed.

(** ** Operand-stack discipline of the emitted text *)

Lemma Lowered_refl (g : CodeGen) : Lowered g g 0.
Proof. exists []. cbn. now rewrite append_nil_r. Qed.

Lemma Lowered_same_output (g g' : CodeGen) :
  output g' = output g -> Lowered g g' 0.
Proof. intros H. exists []. cbn. now rewrite append_nil_r. Qed.

Lemma Lowered_step (f : CodeGen -> CodeGen) (g g0 : CodeGen) (d m : Z) :
  Lowered g0 (f g0) m -> Lowered g g0 d -> Lowered g (f g0) (d + m).
Proof.
  intros (l2 & E2 & N2 & S2) (l1 & E1 & N1 & S1). exists (l1 ++ l2).
  rewrite E2, E1, unlines_app, append_assoc, forallb_app, sum_adjust_app.
  rewrite N1, N2, S1, S2. now repeat split.
Qed.

Lemma Lowered_eq (g g' : CodeGen) (d d' : Z) :
  Lowered g g' d -> d = d' -> Lowered g g' d'.
Proof. now intros H <-. Qed.

Lemma Lowered_emit (l : string) (k : Z) (g : CodeGen) :
  nlfree l = true -> sp_adjust l = k -> Lowered g (emit l g) k.
Proof.
  intros Hl Hk. exists [l]. cbn [forallb sum_adjust fold_right].
  rewrite Hl, Hk, unlines_one. unfold emit. cbn [output set_output].
  repeat split. lia.
Qed.

Lemma Lowered_emitLabel (l : string) (g : CodeGen) :
  nlfree l = true -> sp_adjust (l +:+ ":") = 0 -> Lowered g (emitLabel l g) 0.
Proof.
  intros Hl Hk. exists [l +:+ ":"]. cbn [forallb sum_adjust fold_right].
  rewrite nlfree_app, Hl, Hk, unlines_one. unfold emitLabel.
  cbn [output set_output]. rewrite !append_assoc. repeat split.
Qed.

Lemma Lowered_lines (ls : list string) (g : CodeGen) :
  forallb nlfree ls = true ->
  Lowered g (set_output (output g +:+ unlines ls) g) (sum_adjust ls).
Proof. intros H. exists ls. now repeat split. Qed.

(** The text appended by a lowering and its net stack-pointer effect. *)
Lemma Lowered_net_sp (g g' : CodeGen) (d : Z) :
  Lowered g g' d ->
  exists code, output g' = output g +:+ code /\ net_sp code = d.
Proof.
  intros (ls & E & N & S). exists (unlines ls). split; [exact E|].
  unfold net_sp. now rewrite lines_unlines.
Qed.

Ltac solve_nlfree :=
  rewrite ?nlfree_app, ?to_string_nlfree;
  repeat match goal with
         | H : nlfree _ = true |- _ => rewrite H
         end;
  reflexivity.

(** One visit of a chain that only emits or updates a field. *)
Ltac lowered_local :=
  first
    [ apply Lowered_emit; [solve_nlfree | apply sp_adjust_addi]
    | eapply Lowered_emit; [solve_nlfree | lazy; reflexivity]
    | apply Lowered_emitLabel; [solve_nlfree | reflexivity]
    | apply Lowered_same_output; reflexivity ].

(** Peels a chain of visits down to the state it started from; [sub]
    settles the visits of sub-terms. *)
Ltac lowered_chain sub :=
  first
    [ apply Lowered_refl
    | eapply Lowered_step;
      [ first [ lowered_local | sub ] | lowered_chain sub ] ].

(** The optimizer's decisions depend on the known-constants table only. *)
Lemma isConstantExpression_ext (e : option Expression) (g g' : CodeGen) :
  constantValues g = constantValues g' ->
  isConstantExpression e g = isConstantExpression e g'.
Proof.
  intros H. destruct e as [[]|]; cbn [isConstantExpression];
    rewrite ?H; reflexivity.
Qed.

Lemma evaluateConstantExpression_ext (e : option Expression) (g g' : CodeGen) :
  constantValues g = constantValues g' ->
  evaluateConstantExpression e g = evaluateConstantExpression e g'.
Proof.
  intros H. destruct e as [[]|]; cbn [evaluateConstantExpression];
    rewrite ?H; reflexivity.
Qed.

Lemma every_binary_optimized_ext (e : Expression) (g g' : CodeGen) :
  constantValues g = constantValues g' ->
  every_binary_optimized g e = every_binary_optimized g' e.
Proof.
  intros H.
  induction e as [value|name|op operand IH|op lhs rhs IHl IHr|f args IH]
    using Expression_ind_all; cbn [every_binary_optimized];
    try reflexivity; try assumption.
  - unfold full_fold_applies, fold_undefined.
    rewrite !(isConstantExpression_ext _ g g' H),
      !(evaluateConstantExpression_ext _ g g' H), IHl.
    reflexivity.
  - induction IH as [|a args Ha _ IHargs]; [reflexivity|].
    cbn [forallb]. now rewrite Ha, IHargs.
Qed.

(** A fold of [INT_MIN / -1] or [INT_MIN % -1] does not count as folded. *)
Lemma undefined_fold_not_optimized
    (op : BinaryOp) (lhs rhs : Expression) (g : CodeGen) :
  fold_undefined op lhs rhs g = true ->
  every_binary_optimized g (BinaryExpression op lhs rhs) = false.
Proof.
  intros H. cbn [every_binary_optimized]. rewrite H.
  unfold fold_undefined in H.
  apply andb_true_iff in H as [H _]. apply andb_true_iff in H as [-> _].
  cbn [negb andb]. now rewrite andb_false_r.
Qed.

Lemma arguments_optimized_ext (args : list Expression) (g g' : CodeGen) :
  constantValues g = constantValues g' ->
  forallb (every_binary_optimized g) args
    = forallb (every_binary_optimized g') args.
Proof.
  intros H. induction args as [|a args IH]; [reflexivity|].
  cbn [forallb]. now rewrite IH, (every_binary_optimized_ext a g g' H).
Qed.

Lemma statement_optimized_ext (s : Statement) (g g' : CodeGen) :
  constantValues g = constantValues g' ->
  statement_optimized g s = statement_optimized g' s.
Proof.
  intros H.
  induction s as [name init|variable value|statements IH
                 |condition thn els IHt IHe|condition body IH| | |value
                 |expression] using Statement_ind_all;
    cbn [statement_optimized]; try reflexivity;
    try (destruct init; cbn [optional_optimized]);
    try (destruct value; cbn [optional_optimized]);
    rewrite ?(every_binary_optimized_ext _ g g' H); try reflexivity.
  - induction IH as [|a ss Ha _ IHss]; [reflexivity|].
    cbn [forallb]. now rewrite Ha, IHss.
  - rewrite IHt. destruct els as [s|]; [|reflexivity].
    now rewrite (IHe s eq_refl).
  - now rewrite IH.
Qed.

Lemma optimized_transfer (e : Expression) (g g0 : CodeGen) :
  same_settings g g0 ->
  (optimizationsEnabled g = true -> every_binary_optimized g e = true) ->
  optimizationsEnabled g0 = true -> every_binary_optimized g0 e = true.
Proof.
  intros [E1 E2] H Hen. rewrite (every_binary_optimized_ext e g0 g E2).
  apply H. congruence.
Qed.

Lemma statement_optimized_transfer (s : Statement) (g g0 : CodeGen) :
  same_settings g g0 ->
  (optimizationsEnabled g = true -> statement_optimized g s = true) ->
  optimizationsEnabled g0 = true -> statement_optimized g0 s = true.
Proof.
  intros [E1 E2] H Hen. rewrite (statement_optimized_ext s g0 g E2).
  apply H. congruence.
Qed.

Lemma push_immediate_lowered (v : Z) (g : CodeGen) :
  Lowered g (set_output (output g +:+ unlines (push_immediate v)) g) (-4).
Proof.
  eapply Lowered_eq; [apply Lowered_lines|].
  - unfold push_immediate. cbn [forallb]. rewrite nlfree_app, to_string_nlfree.
    reflexivity.
  - reflexivity.
Qed.

Lemma arguments_lowered (args : list Expression) :
  Forall (fun e => forall g,
            expression_names_ok e = true ->
            (optimizationsEnabled g = true -> every_binary_optimized g e = true) ->
            Lowered g (visitExpression e g) (-4)) args ->
  forall g,
    forallb expression_names_ok args = true ->
    (optimizationsEnabled g = true ->
     forallb (every_binary_optimized g) args = true) ->
    Lowered g (visitAll visitExpression args g) (-4 * Z.of_nat (length args)).
Proof.
  induction 1 as [|a args Ha _ IH]; intros g Hn Ho.
  - apply Lowered_refl.
  - cbn [forallb] in Hn. apply andb_true_iff in Hn as [Hna Hnargs].
    cbn [visitAll]. eapply Lowered_eq.
    + eapply Lowered_step; [apply IH | apply Ha]; try assumption.
      * intros Hen.
        destruct (visitExpression_settings a g) as [E1 E2].
        rewrite E1 in Hen. specialize (Ho Hen). cbn [forallb] in Ho.
        apply andb_true_iff in Ho as [_ Ho].
        now rewrite (arguments_optimized_ext args _ g E2).
      * intros Hen. specialize (Ho Hen). cbn [forallb] in Ho.
        now apply andb_true_iff in Ho as [Ho _].
    + cbn [length]. lia.
Qed.

Lemma expression_lowered (e : Expression) (g : CodeGen) :
  expression_names_ok e = true ->
  (optimizationsEnabled g = true -> every_binary_optimized g e = true) ->
  Lowered g (visitExpression e g) (-4).
Proof.
  revert g.
  induction e as [value|name|op operand IH|op lhs rhs IHl IHr|f args IH]
    using Expression_ind_all; intros g Hn Ho.
  - cbn [visitExpression]. unfold visitNumberLiteral.
    eapply Lowered_eq; [lowered_chain fail | reflexivity].
  - cbn [visitExpression expression_names_ok] in *. unfold visitIdentifier.
    destruct (localVariables g !! name);
      (eapply Lowered_eq; [lowered_chain fail | reflexivity]).
  - cbn [visitExpression expression_names_ok every_binary_optimized] in *.
    destruct op; cbn [emitUnaryOp]; unfold skip;
      (eapply Lowered_eq; [lowered_chain ltac:(now apply IH) | reflexivity]).
  - cbn [expression_names_ok] in Hn. apply andb_true_iff in Hn as [Hnl Hnr].
    destruct (optimizationsEnabled g) eqn:Hen.
    + specialize (Ho eq_refl). cbn [every_binary_optimized] in Ho.
      apply orb_true_iff in Ho as [Hfold | Hsimp].
      * apply andb_true_iff in Hfold as [Hfold Hdef].
        apply negb_true_iff in Hdef.
        unfold full_fold_applies in Hfold.
        apply andb_true_iff in Hfold as [Hc Hv].
        apply andb_true_iff in Hc as [Hcl Hcr].
        destruct (arith_value op _ _) as [v|] eqn:Ev; [|discriminate].
        rewrite (fold_success g Hen op lhs rhs v Hcl Hcr Ev Hdef).
        apply push_immediate_lowered.
      * apply andb_true_iff in Hsimp as [Hc Hop].
        apply andb_true_iff in Hc as [Hcl Hcr].
        apply negb_true_iff in Hcl.
        destruct op; try discriminate.
        -- apply andb_true_iff in Hop as [Hz Hl]. apply Z.eqb_eq in Hz.
           rewrite (simplify_identity g Hen ADD lhs rhs Hcl Hcr)
             by (left; now split).
           apply IHl; [assumption | intros _; exact Hl].
        -- apply orb_true_iff in Hop as [Hone | Hz].
           ++ apply andb_true_iff in Hone as [Hone Hl].
              apply Z.eqb_eq in Hone.
              rewrite (simplify_identity g Hen MUL lhs rhs Hcl Hcr)
                by (right; now split).
              apply IHl; [assumption | intros _; exact Hl].
           ++ apply Z.eqb_eq in Hz.
              rewrite (simplify_mul_zero g Hen lhs rhs Hcr Hz).
              apply push_immediate_lowered.
    + cbn [visitExpression]. rewrite Hen.
      assert (Hsub : forall e0 g0,
                 optimizationsEnabled g0 = false ->
                 optimizationsEnabled g0 = true ->
                 every_binary_optimized g0 e0 = true) by congruence.
      assert (Hg1 : optimizationsEnabled (visitExpression lhs g) = false)
        by (rewrite (proj1 (visitExpression_settings lhs g)); exact Hen).
      destruct op; cbn [emitBinaryOp];
        (eapply Lowered_eq;
         [ lowered_chain ltac:(first [ apply IHr; [assumption | now apply Hsub]
                                     | apply IHl; [assumption | now apply Hsub] ])
         | reflexivity ]).
  - cbn [expression_names_ok every_binary_optimized] in *.
    apply andb_true_iff in Hn as [Hf Hargs].
    cbn [visitExpression].
    eapply Lowered_eq;
      [ lowered_chain ltac:(now apply arguments_lowered) | lia ].
Qed.

Ltac settings_of_chain :=
  repeat first
    [ apply same_settings_refl
    | apply same_settings_step;
      [ first [ apply keeps_settings_visitExpression
              | apply keeps_settings_visitStatement
              | (intros ?; split; reflexivity) ] | ] ].

(** Sub-term visits inside a statement, started from base state [g]. *)
Ltac lowered_expression g :=
  apply expression_lowered;
  [ assumption
  | first [ assumption
          | eapply (optimized_transfer _ g);
            [ settings_of_chain | eassumption ] ] ].

Lemma statements_lowered (statements : list Statement) :
  Forall (fun s => forall g,
            statement_names_ok s = true ->
            (optimizationsEnabled g = true -> statement_optimized g s = true) ->
            Lowered g (visitStatement s g) (8 * Z.of_nat (returns s)))
    statements ->
  forall g,
    forallb statement_names_ok statements = true ->
    (optimizationsEnabled g = true ->
     forallb (statement_optimized g) statements = true) ->
    Lowered g (visitAll visitStatement statements g)
      (8 * Z.of_nat (returns (Block statements))).
Proof.
  induction 1 as [|s ss Hs _ IH]; intros g Hn Ho.
  - apply Lowered_refl.
  - cbn [forallb] in Hn. apply andb_true_iff in Hn as [Hns Hnss].
    cbn [visitAll]. eapply Lowered_eq.
    + eapply Lowered_step; [apply IH | apply Hs]; try assumption.
      * intros Hen.
        destruct (keeps_settings_visitStatement s g) as [E1 E2].
        rewrite E1 in Hen. specialize (Ho Hen). cbn [forallb] in Ho.
        apply andb_true_iff in Ho as [_ Ho].
        rewrite <- Ho. clear -E2.
        induction ss as [|a ss IHss]; [reflexivity|]. cbn [forallb].
        now rewrite IHss, (statement_optimized_ext a _ g E2).
      * intros Hen. specialize (Ho Hen). cbn [forallb] in Ho.
        now apply andb_true_iff in Ho as [Ho _].
    + cbn [returns fold_right]. lia.
Qed.

Lemma statement_lowered (s : Statement) (g : CodeGen) :
  statement_names_ok s = true ->
  (optimizationsEnabled g = true -> statement_optimized g s = true) ->
  Lowered g (visitStatement s g) (8 * Z.of_nat (returns s)).
Proof.
  revert g.
  induction s as [name init|variable value|statements IH
                 |condition thn els IHt IHe|condition body IH| | |value
                 |expression] using Statement_ind_all; intros g Hn Ho.
  - cbn [statement_names_ok statement_optimized visitStatement returns] in *.
    apply andb_true_iff in Hn as [Hname Hinit].
    unfold visitVariableDeclaration.
    destruct init as [init|]; cbn [optional_names_ok optional_optimized] in *;
      (eapply Lowered_eq;
       [ lowered_chain ltac:(lowered_expression g) | reflexivity ]).
  - cbn [statement_names_ok statement_optimized visitStatement returns] in *.
    apply andb_true_iff in Hn as [Hname Hvalue].
    unfold visitAssignmentStatement. cbv beta.
    destruct (localVariables _ !! variable);
      (eapply Lowered_eq;
       [ lowered_chain ltac:(lowered_expression g) | reflexivity ]).
  - cbn [statement_names_ok statement_optimized visitStatement] in *.
    now apply statements_lowered.
  - cbn [statement_names_ok] in Hn.
    apply andb_true_iff in Hn as [Hn Hnels].
    apply andb_true_iff in Hn as [Hncond Hnthn].
    assert (Hocond : optimizationsEnabled g = true ->
                     every_binary_optimized g condition = true).
    { intros Hen. specialize (Ho Hen). cbn [statement_optimized] in Ho.
      apply andb_true_iff in Ho as [Ho _].
      now apply andb_true_iff in Ho as [Ho _]. }
    assert (Hothn : optimizationsEnabled g = true ->
                    statement_optimized g thn = true).
    { intros Hen. specialize (Ho Hen). cbn [statement_optimized] in Ho.
      apply andb_true_iff in Ho as [Ho _].
      now apply andb_true_iff in Ho as [_ Ho]. }
    cbn [visitStatement newLabel returns].
    destruct els as [els|].
    + assert (Hoels : optimizationsEnabled g = true ->
                      statement_optimized g els = true).
      { intros Hen. specialize (Ho Hen). cbn [statement_optimized] in Ho.
        now apply andb_true_iff in Ho as [_ Ho]. }
      eapply Lowered_eq;
        [ lowered_chain
            ltac:(first
                    [ lowered_expression g
                    | apply (IHe els eq_refl);
                      [ assumption
                      | eapply (statement_optimized_transfer _ g);
                        [ settings_of_chain | eassumption ] ]
                    | apply IHt;
                      [ assumption
                      | eapply (statement_optimized_transfer _ g);
                        [ settings_of_chain | eassumption ] ] ])
        | lia ].
    + unfold skip.
      eapply Lowered_eq;
        [ lowered_chain
            ltac:(first
                    [ lowered_expression g
                    | apply IHt;
                      [ assumption
                      | eapply (statement_optimized_transfer _ g);
                        [ settings_of_chain | eassumption ] ] ])
        | lia ].
  - cbn [statement_names_ok] in Hn.
    apply andb_true_iff in Hn as [Hncond Hnbody].
    assert (Hocond : optimizationsEnabled g = true ->
                     every_binary_optimized g condition = true).
    { intros Hen. specialize (Ho Hen). cbn [statement_optimized] in Ho.
      now apply andb_true_iff in Ho as [Ho _]. }
    assert (Hobody : optimizationsEnabled g = true ->
                     statement_optimized g body = true).
    { intros Hen. specialize (Ho Hen). cbn [statement_optimized] in Ho.
      now apply andb_true_iff in Ho as [_ Ho]. }
    cbn [visitStatement newLabel returns].
    eapply Lowered_eq;
      [ lowered_chain
          ltac:(first
                  [ lowered_expression g
                  | apply IH;
                    [ assumption
                    | eapply (statement_optimized_transfer _ g);
                      [ settings_of_chain | eassumption ] ] ])
      | lia ].
  - cbn [visitStatement returns].
    eapply Lowered_eq; [lowered_chain fail | reflexivity].
  - cbn [visitStatement returns].
    eapply Lowered_eq; [lowered_chain fail | reflexivity].
  - cbn [statement_names_ok statement_optimized visitStatement returns] in *.
    unfold visitReturnStatement, generateEpilogue.
    destruct value as [value|]; cbn [optional_names_ok optional_optimized] in *;
      (eapply Lowered_eq;
       [ lowered_chain ltac:(lowered_expression g) | reflexivity ]).
  - cbn [statement_names_ok statement_optimized visitStatement returns] in *.
    eapply Lowered_eq;
      [ lowered_chain ltac:(lowered_expression g) | reflexivity ].
Qed.

(** ** Running the emitted text *)

Lemma run_unlines (ls : list string) (m : Machine) :
  forallb nlfree ls = true -> run (unlines ls) m = exec_lines ls m.
Proof. intros H. unfold run. now rewrite lines_unlines. Qed.

Lemma exec_lines_app (xs ys : list string) (m : Machine) :
  exec_lines (xs ++ ys) m =
  match exec_lines xs m with
  | Some m' => exec_lines ys m'
  | None => None
  end.
Proof.
  revert m. induction xs as [|x xs IH]; intros m; [reflexivity|].
  cbn [app exec_lines]. destruct (exec_line x m); [apply IH | reflexivity].
Qed.

Lemma exec_load_immediate (v : Z) (m : Machine) :
  exec_line ("li t0, " +:+ to_string v) m = Some (set_t0 v m).
Proof.
  unfold exec_line.
  change ("li t0, " +:+ to_string v)
    with (String "l" (String "i" (String " " (String "t" (String "0"
           (String "," (String " " (to_string v)))))))).
  cbn [String.eqb Ascii.eqb Bool.eqb after_prefix].
  now rewrite of_string_to_string.
Qed.

Lemma exec_push_immediate (v : Z) (m : Machine) :
  exec_lines (push_immediate v) m =
  Some (store (Int.add (sp m) (-4)) v
          (set_sp (Int.add (sp m) (-4)) (set_t0 v m))).
Proof.
  unfold push_immediate. cbn [exec_lines]. now rewrite exec_load_immediate.
Qed.

Lemma push_immediate_nlfree (v : Z) :
  forallb nlfree (push_immediate v) = true.
Proof.
  unfold push_immediate. cbn [forallb].
  now rewrite nlfree_app, to_string_nlfree.
Qed.

(** The non-folded lowering of a binary node over two literals. *)
Lemma binary_of_literals_text (op : BinaryOp) (a b : Z) (opcode : list string) :
  (forall g, emitBinaryOp op g = set_output (output g +:+ unlines opcode) g) ->
  output (visitExpression
            (BinaryExpression op (NumberLiteral a) (NumberLiteral b))
            (fresh false ∅))
  = unlines (push_immediate a ++ push_immediate b ++ binary_tail opcode).
Proof.
  intros Hop. cbn [visitExpression optimizationsEnabled fresh].
  unfold visitNumberLiteral. rewrite !push_immediate_emitted.
  cbn [emit output set_output]. rewrite Hop.
  cbn [emit output set_output fresh].
  unfold binary_tail. rewrite !unlines_app.
  cbn [unlines fold_right]. rewrite ?append_assoc, ?append_nil_r.
  reflexivity.
Qed.

Lemma run_binary_of_literals (a b : Z) (opcode : list string) :
  forallb nlfree opcode = true ->
  run (unlines (push_immediate a ++ push_immediate b ++ binary_tail opcode))
    machine0
  = exec_lines (binary_tail opcode)
      (store 4088 b (set_sp 4088 (set_t0 b
         (store 4092 a (set_sp 4092 (set_t0 a machine0)))))).
Proof.
  intros Hop. rewrite run_unlines.
  - rewrite exec_lines_app, exec_push_immediate.
    rewrite exec_lines_app, exec_push_immediate.
    reflexivity.
  - rewrite !forallb_app, !push_immediate_nlfree. unfold binary_tail.
    rewrite !forallb_app, Hop. reflexivity.
Qed.

(** ** Label definitions in the emitted text *)

Lemma label_definitions_app (xs ys : list string) :
  label_definitions (xs ++ ys) = label_definitions xs ++ label_definitions ys.
Proof. unfold label_definitions. apply List.filter_app. Qed.

Lemma Defines_refl (g : CodeGen) : Defines g g [].
Proof. exists []. cbn. now rewrite append_nil_r. Qed.

Lemma Defines_same_output (g g' : CodeGen) :
  output g' = output g -> Defines g g' [].
Proof. intros H. exists []. cbn. now rewrite append_nil_r. Qed.

Lemma Defines_eq (g g' : CodeGen) (d d' : list (string * Z)) :
  Defines g g' d -> d = d' -> Defines g g' d'.
Proof. now intros H <-. Qed.

Lemma Defines_after (g g0 g1 : CodeGen) (d1 d2 : list (string * Z)) :
  Defines g0 g1 d2 -> Defines g g0 d1 -> Defines g g1 (d1 ++ d2).
Proof.
  intros (l2 & E2 & N2 & L2) (l1 & E1 & N1 & L1). exists (l1 ++ l2).
  rewrite E2, E1, unlines_app, append_assoc, forallb_app,
    label_definitions_app, map_app.
  rewrite N1, N2, L1, L2. now repeat split.
Qed.

Lemma Defines_emit (l : string) (g g0 : CodeGen) (d : list (string * Z)) :
  nlfree l = true -> label_definition l = false ->
  Defines g g0 d -> Defines g (emit l g0) d.
Proof.
  intros Hl Hd (ls & E & N & L). exists (ls ++ [l]).
  unfold emit. cbn [output set_output].
  rewrite E, unlines_app, unlines_one, forallb_app, label_definitions_app, N, L.
  cbn [forallb]. rewrite Hl. unfold label_definitions. cbn [List.filter].
  rewrite Hd, app_nil_r, !append_assoc. repeat split.
Qed.

Lemma prefix_nlfree (p : string) : In p label_prefixes -> nlfree p = true.
Proof.
  intros [<- | [<- | [<- | [<- | []]]]]; reflexivity.
Qed.

Lemma prefix_digit_free (p : string) :
  In p label_prefixes -> digit_free p = true.
Proof.
  intros [<- | [<- | [<- | [<- | []]]]]; reflexivity.
Qed.

Lemma label_line_defines (p : string) (n : Z) :
  In p label_prefixes -> label_definition (label_line (p, n)) = true.
Proof.
  unfold label_line, label_definition, starts_with, label_prefixes.
  cbn [fst snd]. rewrite append_assoc.
  intros [<- | [<- | [<- | [<- | []]]]]; cbn [existsb];
    rewrite ?append_cons; cbn [after_prefix Ascii.eqb Bool.eqb];
    reflexivity.
Qed.

Lemma Defines_emitLabel (p : string) (n : Z) (g g0 : CodeGen)
    (d : list (string * Z)) :
  In p label_prefixes ->
  Defines g g0 d -> Defines g (emitLabel (p +:+ to_string n) g0) (d ++ [(p, n)]).
Proof.
  intros Hp H. eapply Defines_after; [|exact H].
  exists [label_line (p, n)]. unfold emitLabel. cbn [output set_output forallb].
  rewrite unlines_one. unfold label_definitions. cbn [List.filter map].
  rewrite (label_line_defines p n Hp).
  unfold label_line. cbn [fst snd].
  rewrite !nlfree_app, (prefix_nlfree p Hp), to_string_nlfree.
  rewrite !append_assoc. repeat split.
Qed.

Lemma starts_with_colon (p s : string) :
  colon_free p = true -> starts_with p (s +:+ ":") = starts_with p s.
Proof.
  unfold starts_with. revert s.
  induction p as [|a p IH]; intros s Hp; [reflexivity|].
  cbn [colon_free] in Hp. apply andb_true_iff in Hp as [Ha Hp].
  apply negb_true_iff in Ha.
  destruct s as [|b s].
  - change ("" +:+ ":") with ":". cbn [after_prefix]. now rewrite Ha.
  - rewrite append_cons. cbn [after_prefix].
    destruct (Ascii.eqb a b); [now apply IH | reflexivity].
Qed.

Lemma label_definition_colon (name : string) :
  label_definition (name +:+ ":") = label_definition name.
Proof.
  unfold label_definition, label_prefixes. cbn [existsb].
  now rewrite !starts_with_colon by reflexivity.
Qed.

Lemma Defines_emitName (name : string) (g g0 : CodeGen)
    (d : list (string * Z)) :
  nlfree name = true -> label_definition name = false ->
  Defines g g0 d -> Defines g (emitLabel name g0) d.
Proof.
  intros Hn Hd (ls & E & N & L). exists (ls ++ [name +:+ ":"]).
  unfold emitLabel. cbn [output set_output].
  rewrite E, unlines_app, unlines_one, forallb_app, label_definitions_app, N, L.
  cbn [forallb]. rewrite nlfree_app, Hn. unfold label_definitions.
  cbn [List.filter]. fold (label_definition (name +:+ ":")).
  rewrite label_definition_colon, Hd, app_nil_r, !append_assoc.
  repeat split.
Qed.

(** Peels the emissions of a chain; [sub] settles the visits of
    sub-terms. *)
Ltac defines_chain sub :=
  first
    [ apply Defines_refl
    | apply Defines_same_output; reflexivity
    | apply Defines_emit;
      [ solve_nlfree | lazy; reflexivity | defines_chain sub ]
    | sub ].

Lemma Defines_optimizer (visitLeft : CodeGen -> CodeGen)
    (op : BinaryOp) (lhs rhs : Expression) (g : CodeGen) :
  Defines g (visitLeft g) [] ->
  Defines g (optimizeConstantFolding visitLeft op lhs rhs g) [].
Proof.
  intros Hl. unfold optimizeConstantFolding.
  repeat match goal with
         | |- context [if ?b then _ else _] => destruct b
         | |- context [match ?o with ADD => _ | _ => _ end] => destruct o
         | |- context [match ?o with Some _ => _ | None => _ end] =>
             destruct o
         end;
    first [ apply Defines_refl | exact Hl | defines_chain fail ].
Qed.

Lemma Defines_visitAll_expressions (args : list Expression) :
  Forall (fun e => forall g g0 d,
            expression_names_ok e = true ->
            Defines g g0 d -> Defines g (visitExpression e g0) d) args ->
  forall g g0 d,
    forallb expression_names_ok args = true ->
    Defines g g0 d -> Defines g (visitAll visitExpression args g0) d.
Proof.
  induction 1 as [|a args Ha _ IH]; intros g g0 d Hn H.
  - exact H.
  - cbn [forallb] in Hn. apply andb_true_iff in Hn as [Hna Hnargs].
    cbn [visitAll]. apply IH; [assumption|]. now apply Ha.
Qed.

Lemma Defines_visitExpression (e : Expression) (g g0 : CodeGen)
    (d : list (string * Z)) :
  expression_names_ok e = true ->
  Defines g g0 d -> Defines g (visitExpression e g0) d.
Proof.
  revert g g0 d.
  induction e as [value|name|op operand IH|op lhs rhs IHl IHr|f args IH]
    using Expression_ind_all; intros g g0 d Hn H.
  - cbn [visitExpression]. unfold visitNumberLiteral.
    defines_chain ltac:(exact H).
  - cbn [visitExpression expression_names_ok] in *. unfold visitIdentifier.
    destruct (localVariables g0 !! name); defines_chain ltac:(exact H).
  - cbn [visitExpression expression_names_ok] in *.
    destruct op; cbn [emitUnaryOp]; unfold skip;
      defines_chain ltac:(now apply IH).
  - cbn [expression_names_ok] in Hn. apply andb_true_iff in Hn as [Hnl Hnr].
    cbn [visitExpression].
    destruct (optimizationsEnabled g0).
    + eapply Defines_eq; [eapply Defines_after; [|exact H]|apply app_nil_r].
      apply Defines_optimizer. apply IHl; [assumption | apply Defines_refl].
    + destruct op; cbn [emitBinaryOp];
        defines_chain ltac:(apply IHr; [assumption|];
                            apply IHl; [assumption | exact H]).
  - cbn [expression_names_ok] in Hn. apply andb_true_iff in Hn as [Hf Hargs].
    cbn [visitExpression].
    defines_chain ltac:(now apply Defines_visitAll_expressions).
Qed.

Lemma Defines_visitAll_statements (statements : list Statement) :
  Forall (fun s => forall g0,
            statement_names_ok s = true ->
            0 <= labelCounter g0 ->
            labelCounter g0 + Z.of_nat (label_calls s) <= Int.int_max ->
            Defines g0 (visitStatement s g0) (issued s (labelCounter g0)))
    statements ->
  forall g0,
    forallb statement_names_ok statements = true ->
    0 <= labelCounter g0 ->
    labelCounter g0 + Z.of_nat (label_calls (Block statements))
      <= Int.int_max ->
    Defines g0 (visitAll visitStatement statements g0)
      (issued (Block statements) (labelCounter g0)).
Proof.
  induction 1 as [|s ss Hs _ IH]; intros g0 Hn Hc Hb.
  - apply Defines_refl.
  - cbn [forallb] in Hn. apply andb_true_iff in Hn as [Hns Hnss].
    cbn [label_calls fold_right] in Hb.
    cbn [visitAll]. cbn [issued fold_right].
    assert (Hc1 : labelCounter (visitStatement s g0)
                  = labelCounter g0 + Z.of_nat (label_calls s))
      by (apply visitStatement_counter; lia).
    rewrite <- Hc1.
    eapply Defines_after; [|apply Hs; [assumption | lia | lia]].
    apply IH; [assumption | lia |].
    cbn [label_calls]. lia.
Qed.

Lemma statement_defines (s : Statement) (g : CodeGen) :
  statement_names_ok s = true ->
  0 <= labelCounter g ->
  labelCounter g + Z.of_nat (label_calls s) <= Int.int_max ->
  Defines g (visitStatement s g) (issued s (labelCounter g)).
Proof.
  revert g.
  induction s as [name init|variable value|statements IH
                 |condition thn els IHt IHe|condition body IH| | |value
                 |expression] using Statement_ind_all; intros g Hn Hc Hb.
  - cbn [statement_names_ok visitStatement issued] in *.
    apply andb_true_iff in Hn as [Hname Hinit].
    unfold visitVariableDeclaration.
    destruct init as [init|]; cbn [optional_names_ok] in *;
      defines_chain
        ltac:(first [ apply Defines_visitExpression; [assumption|]
                    | idtac ]; apply Defines_refl).
  - cbn [statement_names_ok visitStatement issued] in *.
    apply andb_true_iff in Hn as [Hname Hvalue].
    unfold visitAssignmentStatement. cbv beta.
    destruct (localVariables _ !! variable);
      defines_chain
        ltac:(apply Defines_visitExpression; [assumption|];
              apply Defines_refl).
  - cbn [statement_names_ok visitStatement] in *.
    now apply Defines_visitAll_statements.
  - cbn [statement_names_ok] in Hn.
    apply andb_true_iff in Hn as [Hn Hnels].
    apply andb_true_iff in Hn as [Hncond Hnthn].
    cbn [label_calls] in Hb.
    cbn [visitStatement newLabel issued labelCounter set_labelCounter].
    rewrite !int_add_exact
      by (unfold Int.in_range, Int.int_min, Int.int_max in *; lia).
    set (g2 := set_labelCounter _ (set_labelCounter _ g)).
    set (g3 := emit _ (emit _ (emit _ (visitExpression condition g2)))).
    assert (H3 : labelCounter g3 = labelCounter g + 2).
    { subst g3 g2. cbn [labelCounter emit set_output].
      rewrite visitExpression_labelCounter. cbn [labelCounter set_labelCounter].
      lia. }
    assert (D3 : Defines g g3 []).
    { subst g3.
      defines_chain
        ltac:(apply Defines_visitExpression; [assumption|];
              apply Defines_same_output; reflexivity). }
    set (g4 := emitLabel _ (emit _ (visitStatement thn g3))).
    assert (H4 : labelCounter g4
                 = labelCounter g + 2 + Z.of_nat (label_calls thn)).
    { subst g4. cbn [labelCounter emit emitLabel set_output].
      rewrite visitStatement_counter; lia. }
    assert (D4 : Defines g g4
                   (issued thn (labelCounter g + 2)
                    ++ [("else"%string, labelCounter g)])).
    { subst g4. apply Defines_emitLabel; [now left|].
      apply Defines_emit; [solve_nlfree | lazy; reflexivity |].
      rewrite <- H3.
      apply (Defines_after g g3 _ [] _); [|exact D3].
      apply IHt; [assumption | lia | lia]. }
    rewrite !app_assoc.
    apply Defines_emitLabel; [right; now left|].
    destruct els as [els|].
    + rewrite <- H4.
      eapply Defines_after; [|exact D4].
      apply (IHe els eq_refl); [assumption | lia | lia].
    + unfold skip. rewrite app_nil_r. exact D4.
  - cbn [statement_names_ok] in Hn.
    apply andb_true_iff in Hn as [Hncond Hnbody].
    cbn [label_calls] in Hb.
    cbn [visitStatement newLabel issued labelCounter set_labelCounter].
    rewrite !int_add_exact
      by (unfold Int.in_range, Int.int_min, Int.int_max in *; lia).
    set (g2 := set_labelCounter _ (set_labelCounter _ g)).
    set (g3 := emit _ (emit _ (emit _ (visitExpression condition _)))).
    assert (H3 : labelCounter g3 = labelCounter g + 2).
    { subst g3 g2. cbn [labelCounter emit set_output].
      rewrite visitExpression_labelCounter.
      cbn [labelCounter emitLabel set_output set_labelCounter]. lia. }
    assert (D3 : Defines g g3 [("loop"%string, labelCounter g)]).
    { subst g3.
      defines_chain
        ltac:(apply Defines_visitExpression; [assumption|]).
      apply (Defines_emitLabel "loop" (labelCounter g) g g2 []);
        [right; right; now left|].
      apply Defines_same_output. reflexivity. }
    rewrite !app_assoc.
    apply Defines_emitLabel; [right; right; right; now left|].
    apply Defines_emit; [solve_nlfree | lazy; reflexivity |].
    rewrite <- H3.
    eapply Defines_after; [|exact D3].
    apply IH; [assumption | lia | lia].
  - cbn [visitStatement issued].
    defines_chain ltac:(apply Defines_refl).
  - cbn [visitStatement issued].
    defines_chain ltac:(apply Defines_refl).
  - cbn [statement_names_ok visitStatement issued] in *.
    unfold visitReturnStatement, generateEpilogue.
    destruct value as [value|]; cbn [optional_names_ok] in *;
      defines_chain
        ltac:(apply Defines_visitExpression; [assumption|];
              apply Defines_refl).
  - cbn [statement_names_ok visitStatement issued] in *.
    defines_chain
      ltac:(apply Defines_visitExpression; [assumption|];
            apply Defines_refl).
Qed.

(** ** The labels a statement defines *)

Lemma within_In (lo hi n : Z) (ns : list Z) :
  within lo hi ns -> In n ns -> lo <= n < hi.
Proof. unfold within. rewrite List.Forall_forall. intros H. apply H. Qed.

Lemma within_weaken (lo hi lo' hi' : Z) (ns : list Z) :
  lo' <= lo -> hi <= hi' -> within lo hi ns -> within lo' hi' ns.
Proof.
  unfold within. intros Hlo Hhi H. eapply List.Forall_impl; [|exact H].
  cbv beta. intros n Hn. lia.
Qed.

Lemma within_app (lo hi : Z) (xs ys : list Z) :
  within lo hi xs -> within lo hi ys -> within lo hi (xs ++ ys).
Proof. unfold within. intros. apply List.Forall_app. now split. Qed.

Lemma within_one (lo hi n : Z) : lo <= n < hi -> within lo hi [n].
Proof. intros H. constructor; [exact H | constructor]. Qed.

Lemma numbered_nil (lo : Z) : numbered lo 0 [].
Proof. repeat split; constructor. Qed.

Lemma numbered_one (p : string) (c : Z) :
  In p label_prefixes -> numbered c 1 [(p, c)].
Proof.
  intros Hp. unfold numbered. cbn [map snd length].
  split; [apply within_one; lia|].
  split; [constructor; [intros [] | constructor]|].
  split; [constructor; [exact Hp | constructor] | reflexivity].
Qed.

Lemma numbered_weaken (lo lo' : Z) (k : nat) (defs : list (string * Z)) :
  numbered lo k defs -> lo = lo' -> numbered lo' k defs.
Proof. now intros H <-. Qed.

(** Lists numbered one after the other, put together. *)
Lemma numbered_app (lo : Z) (k1 k2 : nat) (xs ys : list (string * Z)) :
  numbered lo k1 xs -> numbered (lo + Z.of_nat k1) k2 ys ->
  numbered lo (k1 + k2) (xs ++ ys).
Proof.
  intros (W1 & N1 & P1 & L1) (W2 & N2 & P2 & L2).
  unfold numbered. rewrite map_app, List.length_app. repeat split.
  - apply within_app; (eapply within_weaken; [| |eassumption]; lia).
  - apply List.NoDup_app; [assumption..|].
    intros n Hin Hin'.
    pose proof (within_In _ _ _ _ W1 Hin).
    pose proof (within_In _ _ _ _ W2 Hin'). lia.
  - apply List.Forall_app. now split.
  - lia.
Qed.

(** A statement that takes the counter values [c] and [c + 1] for two
    labels of its own, defines the first before or after the labels [xs]
    of its first part, and the second after the labels [ys] of its second
    part. *)
Lemma numbered_around (c : Z) (k1 k2 : nat) (p q : string)
    (xs ys : list (string * Z)) :
  In p label_prefixes -> In q label_prefixes ->
  numbered (c + 2) k1 xs -> numbered (c + 2 + Z.of_nat k1) k2 ys ->
  numbered c (2 + k1 + k2) (xs ++ [(p, c)] ++ ys ++ [(q, c + 1)]).
Proof.
  intros Hp Hq (W1 & N1 & P1 & L1) (W2 & N2 & P2 & L2).
  unfold numbered.
  repeat (rewrite ?map_app, ?List.length_app; cbn [map snd fst length app]).
  assert (Ntail : List.NoDup (map snd ys ++ [c + 1])).
  { apply List.NoDup_app; [exact N2 | constructor; [intros [] | constructor]|].
    intros n Hin [<- | []]. pose proof (within_In _ _ _ _ W2 Hin). lia. }
  repeat split.
  - apply within_app; [eapply within_weaken; [| |exact W1]; lia|].
    constructor; [lia|].
    apply within_app; [eapply within_weaken; [| |exact W2]; lia|].
    apply within_one. lia.
  - apply List.NoDup_app; [exact N1 | |].
    + constructor; [|exact Ntail].
      intros Hin. apply List.in_app_iff in Hin as [Hin | [Hin | []]]; [|lia].
      pose proof (within_In _ _ _ _ W2 Hin). lia.
    + intros n Hin Hin'. pose proof (within_In _ _ _ _ W1 Hin) as H1.
      destruct Hin' as [<- | Hin']; [lia|].
      apply List.in_app_iff in Hin' as [Hin' | [<- | []]]; [|lia].
      pose proof (within_In _ _ _ _ W2 Hin'). lia.
  - apply List.Forall_app. split; [exact P1|].
    constructor; [exact Hp|].
    apply List.Forall_app. split; [exact P2|].
    constructor; [exact Hq | constructor].
  - lia.
Qed.

Lemma issued_block_numbered (statements : list Statement) :
  List.Forall (fun s => forall c, numbered c (label_calls s) (issued s c))
    statements ->
  forall c,
    numbered c (label_calls (Block statements)) (issued (Block statements) c).
Proof.
  induction 1 as [|s ss Hs _ IH]; intros c.
  - apply numbered_nil.
  - cbn [issued label_calls fold_right] in *.
    apply numbered_app; [apply Hs | apply IH].
Qed.

Lemma issued_numbered (s : Statement) (c : Z) :
  numbered c (label_calls s) (issued s c).
Proof.
  revert c.
  induction s as [name init|variable value|statements IH
                 |condition thn els IHt IHe|condition body IH| | |value
                 |expression] using Statement_ind_all; intros c;
    try apply numbered_nil.
  - now apply issued_block_numbered.
  - cbn [issued label_calls].
    apply numbered_around; [now left | right; now left | apply IHt |].
    destruct els as [els|]; [apply (IHe els eq_refl) | apply numbered_nil].
  - cbn [issued label_calls].
    apply (numbered_around c 0 (label_calls body) "loop" "endloop" []);
      [ right; right; now left | right; right; right; now left
      | apply numbered_nil
      | eapply numbered_weaken; [apply IH | lia] ].
Qed.

(** ** Distinct label definitions *)

Lemma append_colon_inj (a b : string) : a +:+ ":" = b +:+ ":" -> a = b.
Proof.
  revert b. induction a as [|x a IH]; intros [|y b] H.
  - reflexivity.
  - rewrite append_cons in H. change ("" +:+ ":") with ":" in H.
    injection H as _ H. destruct b; discriminate H.
  - rewrite append_cons in H. change ("" +:+ ":") with ":" in H.
    injection H as _ H. destruct a; discriminate H.
  - rewrite !append_cons in H. injection H as -> H. f_equal. now apply IH.
Qed.

Lemma label_line_inj (d1 d2 : string * Z) :
  In (fst d1) label_prefixes -> In (fst d2) label_prefixes ->
  0 <= snd d1 -> 0 <= snd d2 ->
  label_line d1 = label_line d2 -> snd d1 = snd d2.
Proof.
  intros H1 H2 Hc1 Hc2 H. unfold label_line in H.
  apply append_colon_inj in H.
  now destruct (label_inj _ _ _ _ (prefix_digit_free _ H1)
                  (prefix_digit_free _ H2) Hc1 Hc2 H).
Qed.

Lemma label_lines_NoDup (lo : Z) (k : nat) (defs : list (string * Z)) :
  0 <= lo -> numbered lo k defs -> List.NoDup (map label_line defs).
Proof.
  intros Hlo (W & N & P & _). unfold within, prefixed in *.
  induction defs as [|d defs IH]; [constructor|].
  cbn [map] in *.
  apply List.Forall_cons_iff in W as [Wd W].
  apply List.Forall_cons_iff in P as [Pd P].
  apply List.NoDup_cons_iff in N as [Nd N].
  constructor; [|now apply IH].
  intros Hin. apply List.in_map_iff in Hin as (d' & E & Hd').
  apply Nd. apply List.in_map_iff. exists d'. split; [|exact Hd'].
  rewrite List.Forall_forall in W, P.
  apply label_line_inj; [now apply P | exact Pd | | lia | exact E].
  specialize (W (snd d') (List.in_map snd _ _ Hd')). lia.
Qed.

Lemma function_defines (f : FunctionDefinition) (g : CodeGen) :
  nlfree (fd_name f) = true ->
  label_definition (fd_name f) = false ->
  statement_names_ok (fd_body f) = true ->
  0 <= labelCounter g ->
  labelCounter g + Z.of_nat (label_calls (fd_body f)) <= Int.int_max ->
  Defines g (visitFunctionDefinition f g) (issued (fd_body f) (labelCounter g)).
Proof.
  intros Hname Hlabel Hbody Hc Hb.
  unfold visitFunctionDefinition, generateEpilogue, generatePrologue.
  cbv beta.
  set (g1 := emit _ (emit _ (emit _ (emit _ (emitLabel (fd_name f) _))))).
  assert (H1 : labelCounter g1 = labelCounter g) by reflexivity.
  assert (D1 : Defines g g1 []).
  { subst g1.
    defines_chain
      ltac:(apply Defines_emitName; [assumption | assumption |];
            apply Defines_same_output; reflexivity). }
  defines_chain idtac.
  rewrite <- H1.
  apply (Defines_after g g1 _ [] _); [|exact D1].
  apply statement_defines; [assumption | lia | lia].
Qed.

Lemma issued_unit_numbered (functions : list FunctionDefinition) (c : Z) :
  numbered c (label_calls_unit {| cu_functions := functions |})
    (issued_unit functions c).
Proof.
  unfold label_calls_unit. cbn [cu_functions]. revert c.
  induction functions as [|f fs IH]; intros c.
  - apply numbered_nil.
  - cbn [issued_unit fold_right].
    apply numbered_app; [apply issued_numbered | apply IH].
Qed.

Lemma unit_defines (unit : CompilationUnit) (g : CodeGen) :
  unit_names_ok unit = true ->
  0 <= labelCounter g ->
  labelCounter g + Z.of_nat (label_calls_unit unit) <= Int.int_max ->
  Defines g (visitCompilationUnit unit g)
    (issued_unit (cu_functions unit) (labelCounter g)).
Proof.
  unfold visitCompilationUnit, label_calls_unit, unit_names_ok.
  revert g. induction (cu_functions unit) as [|f fs IH]; intros g Hn Hc Hb.
  - apply Defines_refl.
  - cbn [forallb] in Hn. apply andb_true_iff in Hn as [Hf Hfs].
    apply andb_true_iff in Hf as [Hf Hbody].
    apply andb_true_iff in Hf as [Hname Hlabel].
    apply negb_true_iff in Hlabel.
    cbn [fold_right] in Hb. cbn [visitAll issued_unit fold_right].
    assert (Hc1 : labelCounter (visitFunctionDefinition f g)
                  = labelCounter g + Z.of_nat (label_calls (fd_body f)))
      by (apply visitFunctionDefinition_counter; lia).
    rewrite <- Hc1.
    eapply Defines_after; [|apply function_defines; [assumption..| lia | lia]].
    apply IH; [assumption | lia | lia].
Qed.

Lemma generate_defines (unit : CompilationUnit)
    (funcTable : gmap string FunctionInfo) (g : CodeGen) :
  unit_names_ok unit = true ->
  Z.of_nat (label_calls_unit unit) <= Int.int_max ->
  label_definitions (lines (fst (generate unit funcTable g)))
  = map label_line (issued_unit (cu_functions unit) 0).
Proof.
  intros Hn Hb. unfold generate. cbn [fst].
  set (g0 := emit _ (emit _ (emit _ (set_labelCounter 0 _)))).
  assert (H0 : labelCounter g0 = 0) by reflexivity.
  destruct (unit_defines unit g0 Hn ltac:(lia) ltac:(lia)) as (ls & E & N & L).
  rewrite E, H0 in *.
  change (output g0) with (unlines [".data"; ".text"; ".global main"]).
  rewrite <- unlines_app, lines_unlines.
  - rewrite label_definitions_app. exact L.
  - rewrite forallb_app, N. reflexivity.
Qed.

(** * Part IV: the properties *)

(** C1.  The claim: with optimizations enabled, a binary expression to which
    neither the full fold nor a simplification applies is lowered by the
    normal path.  The code: [visit(BinaryExpression&)] returns right after
    [optimizeConstantFolding], whatever that did, so for such an expression
    nothing at all is emitted and the generator is left as it was; the
    comparison [1 < 2] is one instance. *)
Theorem unoptimized_binary_emits_nothing
    (op : BinaryOp) (lhs rhs : Expression) (g : CodeGen) :
  optimizationsEnabled g = true ->
  full_fold_applies op lhs rhs g = false ->
  simplification_matches op rhs g = false ->
  visitExpression (BinaryExpression op lhs rhs) g = g.
Proof. intros. now apply nothing_applies. Qed.

Lemma unoptimized_binary_emits_nothing_witness :
  visitExpression
    (BinaryExpression LT (NumberLiteral 1) (NumberLiteral 2)) (fresh true ∅)
  = fresh true ∅.
Proof.
  apply (unoptimized_binary_emits_nothing LT (NumberLiteral 1)
           (NumberLiteral 2) (fresh true ∅)); reflexivity.
Defined.

(** C2.  The claim: folding a division or remainder by a constant zero is
    abandoned and the expression is lowered by the normal path.  The code:
    the fold is abandoned, and then nothing is emitted at all, neither a
    [div]/[rem] instruction nor any other line; the generator is unchanged,
    so there is no diagnostic either. *)
Theorem zero_divisor_fold_emits_nothing
    (op : BinaryOp) (lhs rhs : Expression) (g : CodeGen) :
  optimizationsEnabled g = true ->
  op = DIV \/ op = MOD ->
  isConstantExpression (Some lhs) g = true ->
  isConstantExpression (Some rhs) g = true ->
  evaluateConstantExpression (Some rhs) g = 0 ->
  visitExpression (BinaryExpression op lhs rhs) g = g.
Proof.
  intros Hen Hop Hl Hr Hz. apply nothing_applies; [assumption| |].
  - unfold full_fold_applies. rewrite Hl, Hr, Hz.
    destruct Hop as [-> | ->]; reflexivity.
  - unfold simplification_matches.
    destruct Hop as [-> | ->]; now rewrite andb_false_r.
Qed.

Lemma zero_divisor_fold_emits_nothing_witness :
  visitExpression
    (BinaryExpression DIV (NumberLiteral 7) (NumberLiteral 0)) (fresh true ∅)
  = fresh true ∅.
Proof.
  apply (zero_divisor_fold_emits_nothing DIV (NumberLiteral 7)
           (NumberLiteral 0) (fresh true ∅));
    solve [reflexivity | left; reflexivity].
Defined.

(** C3, as amended.  For every statement whose names are single-line,
    lowered with optimizations disabled, or enabled when every binary
    expression the lowering reaches is folded or simplified and no fold
    evaluates [INT_MIN / -1] or [INT_MIN % -1], which C++ leaves
    undefined: the text the statement appends consists of complete lines whose stack-pointer
    adjustments add up to 8 for each return statement it contains (the
    epilogue of a return releases the 8-byte frame) and to zero otherwise.
    Expression statements, assignments, declarations, conditions of
    conditionals and loops all pop the one word their expression pushed. *)
Theorem statement_net_stack_effect (s : Statement) (g : CodeGen) :
  statement_names_ok s = true ->
  (optimizationsEnabled g = true -> statement_optimized g s = true) ->
  exists code,
    output (visitStatement s g) = output g +:+ code /\
    net_sp code = 8 * Z.of_nat (returns s).
Proof.
  intros Hn Ho. apply Lowered_net_sp. now apply statement_lowered.
Qed.

Lemma statement_net_stack_effect_witness :
  let s :=
    Block
      [ VariableDeclaration "x"
          (Some (BinaryExpression ADD (NumberLiteral 1) (NumberLiteral 2)));
        ExpressionStatement
          (BinaryExpression MUL (FunctionCall "f" [Identifier "x"])
             (NumberLiteral 0));
        WhileStatement (Identifier "x")
          (IfStatement
             (BinaryExpression ADD (UnaryExpression NOT (Identifier "x"))
                (NumberLiteral 0))
             BreakStatement
             (Some (AssignmentStatement "x" (NumberLiteral 0))));
        ReturnStatement (Some (Identifier "x")) ] in
  exists code,
    output (visitStatement s (fresh true ∅))
      = output (fresh true ∅) +:+ code /\
    net_sp code = 8 * Z.of_nat 1.
Proof.
  cbv zeta.
  apply (statement_net_stack_effect
           (Block
              [ VariableDeclaration "x"
                  (Some (BinaryExpression ADD (NumberLiteral 1)
                           (NumberLiteral 2)));
                ExpressionStatement
                  (BinaryExpression MUL (FunctionCall "f" [Identifier "x"])
                     (NumberLiteral 0));
                WhileStatement (Identifier "x")
                  (IfStatement
                     (BinaryExpression ADD
                        (UnaryExpression NOT (Identifier "x"))
                        (NumberLiteral 0))
                     BreakStatement
                     (Some (AssignmentStatement "x" (NumberLiteral 0))));
                ReturnStatement (Some (Identifier "x")) ])
           (fresh true ∅)).
  - reflexivity.
  - intros _. reflexivity.
Defined.

(** C3, the claim as stated fails.  With optimizations disabled, the text
    of a plain [return;] adjusts the stack pointer by 8 in all: its
    epilogue releases the frame.  With optimizations enabled, the
    expression statement [1 < 2;] appends only its own pop, because the
    comparison emits nothing: 4 in all. *)
Lemma statement_net_stack_effect_counterexample :
  (forall code,
     output (visitStatement (ReturnStatement None) (fresh false ∅))
       = output (fresh false ∅) +:+ code ->
     net_sp code = 8) /\
  (forall code,
     output (visitStatement
               (ExpressionStatement
                  (BinaryExpression LT (NumberLiteral 1) (NumberLiteral 2)))
               (fresh true ∅))
       = output (fresh true ∅) +:+ code ->
     net_sp code = 4).
Proof.
  split; intros code H;
    change (output (fresh _ ∅) +:+ code) with code in H; subst code;
    vm_compute; reflexivity.
Qed.

(** C4, as amended.  With optimizations enabled, both operands constant
    with [int] values [a] and [b], the operator one of add, sub, mul, div,
    mod,
    [b] nonzero for div and mod, the pair [a], [b] not [INT_MIN], [-1] for
    div and mod (C++ leaves both [INT_MIN / -1] and [INT_MIN % -1]
    undefined), and the integer result [a op b] representable as an [int]:
    the lowering appends exactly the load of that result into [t0] and one
    push of [t0]. *)
Theorem constant_fold_emits_exact_value
    (op : BinaryOp) (lhs rhs : Expression) (g : CodeGen) (v : Z) :
  optimizationsEnabled g = true ->
  isConstantExpression (Some lhs) g = true ->
  isConstantExpression (Some rhs) g = true ->
  Int.in_range (evaluateConstantExpression (Some lhs) g) ->
  Int.in_range (evaluateConstantExpression (Some rhs) g) ->
  arith_value op (evaluateConstantExpression (Some lhs) g)
                 (evaluateConstantExpression (Some rhs) g) = Some v ->
  fold_undefined op lhs rhs g = false ->
  Int.in_range v ->
  visitExpression (BinaryExpression op lhs rhs) g =
  set_output (output g +:+ unlines (push_immediate v)) g.
Proof.
  intros Hen Hl Hr _ _ Hv Hdef Hrange.
  rewrite (fold_success g Hen op lhs rhs v Hl Hr Hv Hdef).
  now rewrite wrap_in_range.
Qed.

Lemma constant_fold_emits_exact_value_witness :
  output (visitExpression
            (BinaryExpression MOD (NumberLiteral (-7)) (NumberLiteral 2))
            (fresh true ∅))
  = unlines ["li t0, -1"; "addi sp, sp, -4"; "sw t0, 0(sp)"].
Proof.
  rewrite (constant_fold_emits_exact_value MOD (NumberLiteral (-7))
             (NumberLiteral 2) (fresh true ∅) (-1));
    [ reflexivity | reflexivity | reflexivity | reflexivity
    | cbn; unfold Int.in_range, Int.int_min, Int.int_max; lia
    | cbn; unfold Int.in_range, Int.int_min, Int.int_max; lia
    | reflexivity | reflexivity
    | unfold Int.in_range, Int.int_min, Int.int_max; lia ].
Defined.

(** C4, the claim as stated fails: the sum of the literals [2147483647] and
    [1] is [2147483648], and the lowering loads [-2147483648]. *)
Lemma constant_fold_overflow_counterexample :
  let e := BinaryExpression ADD (NumberLiteral 2147483647) (NumberLiteral 1) in
  arith_value ADD 2147483647 1 = Some 2147483648 /\
  output (visitExpression e (fresh true ∅)) =
    unlines ["li t0, -2147483648"; "addi sp, sp, -4"; "sw t0, 0(sp)"] /\
  output (visitExpression e (fresh true ∅)) <>
    unlines (push_immediate 2147483648).
Proof.
  cbv zeta. split; [reflexivity|]. split; [reflexivity|].
  vm_compute. discriminate.
Qed.

(** C5.  With optimizations enabled and the right operand a constant that
    evaluates to zero, [x * 0] appends exactly the load of zero and one
    push, whatever [x] is; [x] is not visited, so nothing it would emit
    (a call included) appears and the generator is otherwise unchanged. *)
Theorem multiply_by_zero_elides_operand
    (x rhs : Expression) (g : CodeGen) :
  optimizationsEnabled g = true ->
  isConstantExpression (Some rhs) g = true ->
  evaluateConstantExpression (Some rhs) g = 0 ->
  visitExpression (BinaryExpression MUL x rhs) g =
  set_output
    (output g +:+ unlines ["li t0, 0"; "addi sp, sp, -4"; "sw t0, 0(sp)"]) g.
Proof. intros Hen Hr Hz. now apply simplify_mul_zero. Qed.

Lemma multiply_by_zero_elides_operand_witness :
  output (visitExpression
            (BinaryExpression MUL (FunctionCall "f" [Identifier "a"])
               (NumberLiteral 0)) (fresh true ∅))
  = unlines ["li t0, 0"; "addi sp, sp, -4"; "sw t0, 0(sp)"].
Proof.
  rewrite (multiply_by_zero_elides_operand (FunctionCall "f" [Identifier "a"])
             (NumberLiteral 0) (fresh true ∅));
    reflexivity.
Defined.

(** C6, as amended.  With optimizations enabled, [x + 0] and [x * 1] (right
    operand a constant evaluating to 0, respectively 1) are lowered exactly
    as [x] alone, for every [x] that is not an identifier of the
    known-constants table; a literal [x] is assumed to hold an [int]. *)
Theorem identity_operand_lowers_as_left
    (op : BinaryOp) (x rhs : Expression) (g : CodeGen) :
  optimizationsEnabled g = true ->
  isConstantExpression (Some rhs) g = true ->
  (op = ADD /\ evaluateConstantExpression (Some rhs) g = 0) \/
  (op = MUL /\ evaluateConstantExpression (Some rhs) g = 1) ->
  (forall name, x = Identifier name -> constantValues g !! name = None) ->
  (forall value, x = NumberLiteral value -> Int.in_range value) ->
  visitExpression (BinaryExpression op x rhs) g = visitExpression x g.
Proof.
  intros Hen Hr Hop Hid Hlit.
  destruct (isConstantExpression (Some x) g) eqn:Hx.
  - destruct x as [value|name| | |]; try discriminate.
    + assert (Hv : arith_value op value (evaluateConstantExpression (Some rhs) g)
                   = Some value).
      { destruct Hop as [[-> ->] | [-> ->]]; cbn [arith_value]; f_equal; lia. }
      rewrite (fold_success g Hen op (NumberLiteral value) rhs value Hx Hr Hv)
        by (unfold fold_undefined;
            destruct Hop as [[-> _] | [-> _]]; apply andb_false_r).
      rewrite wrap_in_range by now apply Hlit.
      cbn [visitExpression]. unfold visitNumberLiteral.
      symmetry. apply push_immediate_emitted.
    + cbn [isConstantExpression] in Hx.
      now rewrite (Hid name eq_refl) in Hx.
  - now apply simplify_identity.
Qed.

Lemma identity_operand_lowers_as_left_witness :
  visitExpression
    (BinaryExpression ADD (Identifier "a") (NumberLiteral 0)) (fresh true ∅)
  = visitExpression (Identifier "a") (fresh true ∅).
Proof.
  apply (identity_operand_lowers_as_left ADD (Identifier "a")
           (NumberLiteral 0) (fresh true ∅)).
  - reflexivity.
  - reflexivity.
  - left. split; reflexivity.
  - intros name _. reflexivity.
  - intros value H. discriminate H.
Defined.

(** C6, the claim as stated fails: when [c] is a known constant (here 7),
    [c + 0] is folded to a load of the immediate 7, while [c] alone is
    lowered as a load of the variable. *)
Lemma identity_operand_counterexample :
  let g := fresh true {[ "c"%string := 7 ]} in
  output (visitExpression
            (BinaryExpression ADD (Identifier "c") (NumberLiteral 0)) g)
    = unlines ["li t0, 7"; "addi sp, sp, -4"; "sw t0, 0(sp)"] /\
  output (visitExpression (Identifier "c") g)
    = unlines ["la t0, c"; "lw t0, 0(t0)"; "addi sp, sp, -4"; "sw t0, 0(sp)"] /\
  output (visitExpression
            (BinaryExpression ADD (Identifier "c") (NumberLiteral 0)) g)
    <> output (visitExpression (Identifier "c") g).
Proof.
  cbv zeta. split; [vm_compute; reflexivity|].
  split; [vm_compute; reflexivity|]. vm_compute. discriminate.
Qed.

(** C7.  As long as the [int] counter does not overflow: a call to the
    label generator names the counter value it finds and advances the
    counter by exactly one; the name it returns differs from every name
    formed at a smaller counter value, that is from every name issued
    earlier in the run; the names of any series of calls are pairwise
    distinct and the counter ends at its start plus the number of calls, so
    no value repeats (prefixes hold no digit: the generator passes [else],
    [endif], [loop] and [endloop]); lowering a statement or a function
    definition only advances the counter, by one per call, and never sets
    it back; [generate] sets it to zero at its start, whatever it was
    before, and leaves it at the number of labels issued in the run.

    The labels the generator itself issues show in its text, each as the
    line that defines it.  In the text a statement appends, the label
    definitions are pairwise distinct lines; there is one for each call to
    the label generator, and they carry, under the four prefixes, pairwise
    distinct counter values from the value the statement found up to the
    value it leaves.  In the text [generate] returns for a unit whose
    function names start with none of the four prefixes, the label
    definitions are pairwise distinct lines, one for each call of the run,
    with pairwise distinct counter values from zero on. *)
Theorem labels_distinct_counter_monotone :
  (forall prefix g, 0 <= labelCounter g < Int.int_max ->
     fst (newLabel prefix g) = prefix +:+ to_string (labelCounter g) /\
     labelCounter (snd (newLabel prefix g)) = labelCounter g + 1) /\
  (forall prefix earlier c g,
     digit_free prefix = true -> digit_free earlier = true ->
     0 <= c < labelCounter g ->
     fst (newLabel prefix g) <> earlier +:+ to_string c) /\
  (forall prefixes g,
     forallb digit_free prefixes = true ->
     0 <= labelCounter g ->
     labelCounter g + Z.of_nat (length prefixes) <= Int.int_max ->
     List.NoDup (fst (newLabels prefixes g)) /\
     labelCounter (snd (newLabels prefixes g))
       = labelCounter g + Z.of_nat (length prefixes)) /\
  forallb digit_free label_prefixes = true /\
  (forall s g,
     0 <= labelCounter g ->
     labelCounter g + Z.of_nat (label_calls s) <= Int.int_max ->
     labelCounter (visitStatement s g)
       = labelCounter g + Z.of_nat (label_calls s)) /\
  (forall f g,
     0 <= labelCounter g ->
     labelCounter g + Z.of_nat (label_calls (fd_body f)) <= Int.int_max ->
     labelCounter (visitFunctionDefinition f g)
       = labelCounter g + Z.of_nat (label_calls (fd_body f))) /\
  (forall unit funcTable g,
     Z.of_nat (label_calls_unit unit) <= Int.int_max ->
     labelCounter (snd (generate unit funcTable g))
       = Z.of_nat (label_calls_unit unit)) /\
  (forall s g,
     statement_names_ok s = true ->
     0 <= labelCounter g ->
     labelCounter g + Z.of_nat (label_calls s) <= Int.int_max ->
     exists ls defs,
       output (visitStatement s g) = output g +:+ unlines ls /\
       forallb nlfree ls = true /\
       label_definitions ls = map label_line defs /\
       numbered (labelCounter g) (label_calls s) defs /\
       List.NoDup (label_definitions ls)) /\
  (forall unit funcTable g,
     unit_names_ok unit = true ->
     Z.of_nat (label_calls_unit unit) <= Int.int_max ->
     exists defs,
       label_definitions (lines (fst (generate unit funcTable g)))
         = map label_line defs /\
       numbered 0 (label_calls_unit unit) defs /\
       List.NoDup (label_definitions (lines (fst (generate unit funcTable g))))).
Proof.
  split; [|split; [|split; [|split; [|split; [|split; [|split; [|split]]]]]]].
  - intros prefix g H. split; [reflexivity | now apply newLabel_counter].
  - intros prefix earlier c g Hp Hq Hc Heq. cbn [newLabel fst] in Heq.
    destruct (label_inj prefix earlier (labelCounter g) c Hp Hq
                ltac:(lia) ltac:(lia) Heq). lia.
  - intros prefixes g Hp Hc Hb. split.
    + now apply newLabels_NoDup.
    + now apply newLabels_from.
  - reflexivity.
  - intros s g. apply visitStatement_counter.
  - intros f g. apply visitFunctionDefinition_counter.
  - intros unit funcTable g Hb. unfold generate. cbn [snd].
    rewrite visitCompilationUnit_counter;
      cbn [labelCounter emit set_output set_labelCounter]; lia.
  - intros s g Hn Hc Hb.
    destruct (statement_defines s g Hn Hc Hb) as (ls & E & N & L).
    pose proof (issued_numbered s (labelCounter g)) as Hnum.
    exists ls, (issued s (labelCounter g)).
    repeat split; try assumption; try apply Hnum.
    rewrite L. now apply (label_lines_NoDup (labelCounter g) (label_calls s)).
  - intros unit funcTable g Hn Hb.
    pose proof (issued_unit_numbered (cu_functions unit) 0) as Hnum.
    destruct unit as [functions]. cbn [cu_functions] in *.
    exists (issued_unit functions 0).
    rewrite (generate_defines {| cu_functions := functions |} funcTable g Hn Hb).
    cbn [cu_functions].
    repeat split; try apply Hnum.
    now apply (label_lines_NoDup 0
                 (label_calls_unit {| cu_functions := functions |})).
Qed.

Lemma labels_distinct_counter_monotone_witness :
  let unit :=
    {| cu_functions :=
         [ {| fd_name := "f";
              fd_body :=
                WhileStatement (Identifier "n")
                  (IfStatement (Identifier "n")
                     (WhileStatement (NumberLiteral 0) BreakStatement)
                     (Some (IfStatement (NumberLiteral 1)
                              ContinueStatement None))) |};
           {| fd_name := "main";
              fd_body :=
                IfStatement (FunctionCall "f" [NumberLiteral 3])
                  (ReturnStatement (Some (NumberLiteral 1)))
                  None |} ] |} in
  exists defs,
    label_definitions (lines (fst (generate unit ∅ (fresh false ∅))))
      = map label_line defs /\
    numbered 0 10 defs /\
    List.NoDup (label_definitions (lines (fst (generate unit ∅ (fresh false ∅))))).
Proof.
  cbv zeta.
  apply (proj2 (proj2 (proj2 (proj2 (proj2 (proj2 (proj2 (proj2
           labels_distinct_counter_monotone)))))))
           {| cu_functions :=
                [ {| fd_name := "f";
                     fd_body :=
                       WhileStatement (Identifier "n")
                         (IfStatement (Identifier "n")
                            (WhileStatement (NumberLiteral 0) BreakStatement)
                            (Some (IfStatement (NumberLiteral 1)
                                     ContinueStatement None))) |};
                  {| fd_name := "main";
                     fd_body :=
                       IfStatement (FunctionCall "f" [NumberLiteral 3])
                         (ReturnStatement (Some (NumberLiteral 1)))
                         None |} ] |}
           ∅ (fresh false ∅)).
  - reflexivity.
  - cbn. unfold Int.int_max. lia.
Defined.

(** C8.  A break statement appends the single line [j break_label] and a
    continue statement the single line [j continue_label], in every
    generator state, hence at every loop nesting depth; nothing else of the
    generator changes.  Neither target is ever a label of a loop or a
    conditional: no name the label generator returns for one of the
    generator's prefixes equals [break_label] or [continue_label].  Inside a
    loop the jump of a break sits between the loop's branch to its own end
    label [endloop<n>] and the definition of that label, and names
    [break_label]. *)
Theorem break_continue_fixed_targets :
  (forall g, visitStatement BreakStatement g =
             set_output (output g +:+ unlines ["j break_label"]) g) /\
  (forall g, visitStatement ContinueStatement g =
             set_output (output g +:+ unlines ["j continue_label"]) g) /\
  (forall prefix g, In prefix label_prefixes ->
     fst (newLabel prefix g) <> "break_label" /\
     fst (newLabel prefix g) <> "continue_label") /\
  (forall condition g,
     let loopLabel := "loop" +:+ to_string (labelCounter g) in
     let endLabel := "endloop" +:+ to_string (Int.add (labelCounter g) 1) in
     let g' := emit ("beqz t0, " +:+ endLabel)
                 (emit "addi sp, sp, 4"
                    (emit "lw t0, 0(sp)"
                       (visitExpression condition
                          (emitLabel loopLabel
                             (set_labelCounter
                                (Int.add (Int.add (labelCounter g) 1) 1) g))))) in
     visitStatement (WhileStatement condition BreakStatement) g =
     set_output
       (output g' +:+
        unlines ["j break_label"; "j " +:+ loopLabel; endLabel +:+ ":"]) g').
Proof.
  split; [intros g; cbn [visitStatement]; emit_block|].
  split; [intros g; cbn [visitStatement]; emit_block|].
  split.
  - intros prefix g Hin. cbn [newLabel fst].
    repeat (destruct Hin as [<- | Hin]; [split; intros H; discriminate H|]).
    destruct Hin.
  - intros condition g loopLabel endLabel g'.
    cbn [visitStatement newLabel labelCounter set_labelCounter].
    change (set_labelCounter _ (set_labelCounter _ g))
      with (set_labelCounter (Int.add (Int.add (labelCounter g) 1) 1) g).
    fold loopLabel endLabel g'. clearbody g'.
    emit_block.
Qed.

Lemma break_continue_fixed_targets_witness :
  fst (newLabel "endloop" (fresh false ∅)) <> "break_label" /\
  fst (newLabel "endloop" (fresh false ∅)) <> "continue_label".
Proof.
  apply (proj1 (proj2 (proj2 break_continue_fixed_targets))
           "endloop" (fresh false ∅)).
  right. right. right. left. reflexivity.
Defined.

(** C9.  On the non-folded path (optimizations disabled) a logical [and],
    respectively [or], lowers both operands unconditionally and then pops
    them and applies the single instruction [and t0, t0, t1], respectively
    [or t0, t0, t1], to the two words: no branch, no normalisation to 0/1.
    Running the text emitted for two literals leaves the bitwise
    conjunction, respectively disjunction, of the two words on top of the
    operand stack; for [1 && 2] that word is 0 although both operands are
    nonzero. *)
Theorem logical_operators_are_bitwise
    (lhs rhs : Expression) (g : CodeGen) :
  optimizationsEnabled g = false ->
  let g' := visitExpression rhs (visitExpression lhs g) in
  visitExpression (BinaryExpression AND lhs rhs) g =
    set_output (output g' +:+ unlines (binary_tail ["and t0, t0, t1"])) g' /\
  visitExpression (BinaryExpression OR lhs rhs) g =
    set_output (output g' +:+ unlines (binary_tail ["or t0, t0, t1"])) g' /\
  (forall a b,
     option_map stack_top
       (run (output (visitExpression
                       (BinaryExpression AND (NumberLiteral a) (NumberLiteral b))
                       (fresh false ∅))) machine0) = Some (Z.land a b)) /\
  (forall a b,
     option_map stack_top
       (run (output (visitExpression
                       (BinaryExpression OR (NumberLiteral a) (NumberLiteral b))
                       (fresh false ∅))) machine0) = Some (Z.lor a b)) /\
  option_map stack_top
    (run (output (visitExpression
                    (BinaryExpression AND (NumberLiteral 1) (NumberLiteral 2))
                    (fresh false ∅))) machine0) = Some 0.
Proof.
  intros Hdis g'.
  split; [|split; [|split; [|split]]].
  - cbn [visitExpression]. rewrite Hdis. fold g'. clearbody g'.
    unfold emitBinaryOp, binary_tail. cbn [app]. emit_block.
  - cbn [visitExpression]. rewrite Hdis. fold g'. clearbody g'.
    unfold emitBinaryOp, binary_tail. cbn [app]. emit_block.
  - intros a b.
    rewrite (binary_of_literals_text AND a b ["and t0, t0, t1"])
      by (intros g0; cbn [emitBinaryOp]; emit_block).
    rewrite run_binary_of_literals by reflexivity.
    vm_compute. reflexivity.
  - intros a b.
    rewrite (binary_of_literals_text OR a b ["or t0, t0, t1"])
      by (intros g0; cbn [emitBinaryOp]; emit_block).
    rewrite run_binary_of_literals by reflexivity.
    vm_compute. reflexivity.
  - vm_compute. reflexivity.
Qed.

Lemma logical_operators_are_bitwise_witness :
  output (visitExpression
            (BinaryExpression AND (NumberLiteral 1) (NumberLiteral 2))
            (fresh false ∅))
  = unlines (push_immediate 1 ++ push_immediate 2 ++
             binary_tail ["and t0, t0, t1"]).
Proof.
  rewrite (proj1 (logical_operators_are_bitwise (NumberLiteral 1)
                    (NumberLiteral 2) (fresh false ∅) eq_refl)).
  reflexivity.
Defined.

(** C10.  Both functions of the constant evaluator are total and accept the
    null pointer.  For a null expression, and for every expression that is
    neither a numeric literal nor an identifier present in the
    known-constants table, [isConstantExpression] answers false and
    [evaluateConstantExpression] answers 0. *)
Theorem constant_evaluator_defaults
    (expr : option Expression) (g : CodeGen) :
  (expr = None \/
   exists e, expr = Some e /\
     (forall value, e <> NumberLiteral value) /\
     (forall name, e = Identifier name -> constantValues g !! name = None)) ->
  isConstantExpression expr g = false /\
  evaluateConstantExpression expr g = 0.
Proof.
  intros [-> | (e & -> & Hlit & Hid)]; [split; reflexivity|].
  destruct e as [value|name|op x|op l r|f args];
    cbn [isConstantExpression evaluateConstantExpression];
    try (split; reflexivity).
  - now destruct (Hlit value).
  - now rewrite (Hid name eq_refl).
Qed.

Lemma constant_evaluator_defaults_witness :
  isConstantExpression (Some (Identifier "x")) (fresh true {[ "c"%string := 7 ]})
    = false /\
  evaluateConstantExpression (Some (Identifier "x"))
    (fresh true {[ "c"%string := 7 ]}) = 0.
Proof.
  apply (constant_evaluator_defaults (Some (Identifier "x"))
           (fresh true {[ "c"%string := 7 ]})).
  right. exists (Identifier "x"). split; [reflexivity|]. split.
  - intros value H. discriminate H.
  - intros name H. injection H as <-. reflexivity.
Defined.

(** * Part V: supporting lemmas of the further properties *)

(** ** The output buffer only grows *)

Lemma Extends_refl (g : CodeGen) : Extends g g.
Proof. exists EmptyString. now rewrite append_nil_r. Qed.

Lemma Extends_step (f : CodeGen -> CodeGen) (g g0 : CodeGen) :
  appends f -> Extends g g0 -> Extends g (f g0).
Proof.
  intros Hf [c1 E1]. destruct (Hf g0) as [c2 E2].
  exists (c1 +:+ c2). now rewrite E2, E1, append_assoc.
Qed.

Lemma appends_emit (l : string) : appends (emit l).
Proof. intros g. now exists (l +:+ newline). Qed.

Lemma appends_emitLabel (l : string) : appends (emitLabel l).
Proof.
  intros g. exists (l +:+ ":" +:+ newline). reflexivity.
Qed.

Lemma appends_same_output (f : CodeGen -> CodeGen) :
  (forall g, output (f g) = output g) -> appends f.
Proof. intros H g. exists EmptyString. now rewrite H, append_nil_r. Qed.

Lemma appends_visitAll {A : Type} (visit : A -> CodeGen -> CodeGen)
    (xs : list A) :
  Forall (fun x => appends (visit x)) xs -> appends (visitAll visit xs).
Proof.
  induction 1 as [|x xs Hx _ IH]; intros g.
  - apply Extends_refl.
  - cbn [visitAll]. apply Extends_step; [exact IH | apply Hx].
Qed.

(** Peels a chain of visits; [sub] settles the visits of sub-terms. *)
Ltac extends_chain sub :=
  repeat first
    [ apply Extends_refl
    | apply Extends_step;
      [ first [ apply appends_emit
              | apply appends_emitLabel
              | sub
              | (apply appends_same_output; intros ?; reflexivity) ] | ] ].

Lemma appends_optimizer (visitLeft : CodeGen -> CodeGen)
    (op : BinaryOp) (lhs rhs : Expression) :
  appends visitLeft -> appends (optimizeConstantFolding visitLeft op lhs rhs).
Proof.
  intros Hl g. unfold optimizeConstantFolding.
  repeat match goal with
         | |- context [if ?b then _ else _] => destruct b
         | |- context [match ?o with ADD => _ | _ => _ end] => destruct o
         | |- context [match ?o with Some _ => _ | None => _ end] =>
             destruct o
         end;
    first [ apply Extends_refl | apply Hl | extends_chain fail ].
Qed.

Lemma appends_visitExpression (e : Expression) : appends (visitExpression e).
Proof.
  induction e as [value|name|op operand IH|op lhs rhs IHl IHr|f args IH]
    using Expression_ind_all; intros g.
  - cbn [visitExpression]. unfold visitNumberLiteral. extends_chain fail.
  - cbn [visitExpression]. unfold visitIdentifier.
    destruct (localVariables g !! name); extends_chain fail.
  - cbn [visitExpression].
    destruct op; cbn [emitUnaryOp]; unfold skip;
      extends_chain ltac:(exact IH).
  - cbn [visitExpression]. destruct (optimizationsEnabled g).
    + now apply appends_optimizer.
    + destruct op; cbn [emitBinaryOp];
        extends_chain ltac:(first [exact IHr | exact IHl]).
  - cbn [visitExpression].
    extends_chain ltac:(now apply appends_visitAll).
Qed.

Lemma appends_visitStatement (s : Statement) : appends (visitStatement s).
Proof.
  induction s as [name init|variable value|statements IH
                 |condition thn els IHt IHe|condition body IH| | |value
                 |expression] using Statement_ind_all; intros g.
  - cbn [visitStatement]. unfold visitVariableDeclaration.
    destruct init; extends_chain ltac:(apply appends_visitExpression).
  - cbn [visitStatement]. unfold visitAssignmentStatement. cbv beta.
    destruct (localVariables _ !! variable);
      extends_chain ltac:(apply appends_visitExpression).
  - cbn [visitStatement]. now apply appends_visitAll.
  - cbn [visitStatement newLabel]. destruct els as [els|]; unfold skip;
      extends_chain ltac:(first [ apply appends_visitExpression
                                | exact (IHe els eq_refl)
                                | exact IHt ]).
  - cbn [visitStatement newLabel].
    extends_chain ltac:(first [apply appends_visitExpression | exact IH]).
  - cbn [visitStatement]. extends_chain fail.
  - cbn [visitStatement]. extends_chain fail.
  - cbn [visitStatement]. unfold visitReturnStatement, generateEpilogue.
    destruct value; extends_chain ltac:(apply appends_visitExpression).
  - cbn [visitStatement].
    extends_chain ltac:(apply appends_visitExpression).
Qed.

Lemma appends_visitFunctionDefinition (f : FunctionDefinition) :
  appends (visitFunctionDefinition f).
Proof.
  intros g. unfold visitFunctionDefinition, generatePrologue, generateEpilogue.
  extends_chain ltac:(apply appends_visitStatement).
Qed.

Lemma appends_visitCompilationUnit (unit : CompilationUnit) :
  appends (visitCompilationUnit unit).
Proof.
  unfold visitCompilationUnit. apply appends_visitAll.
  apply Forall_forall. intros f _. apply appends_visitFunctionDefinition.
Qed.

(** ** The fields a statement never writes *)

Lemma same_static_refl (g : CodeGen) : same_static g g.
Proof. now repeat split. Qed.

Lemma same_static_step (f : CodeGen -> CodeGen) (g g0 : CodeGen) :
  keeps_static f -> same_static g g0 -> same_static g (f g0).
Proof.
  intros Hf (E1 & E2 & E3 & E4). destruct (Hf g0) as (F1 & F2 & F3 & F4).
  repeat split; congruence.
Qed.

Lemma keeps_static_visitExpression (e : Expression) :
  keeps_static (visitExpression e).
Proof.
  intros g. rewrite (only_output_visitExpression e g). now repeat split.
Qed.

Lemma keeps_static_visitAll {A : Type} (visit : A -> CodeGen -> CodeGen)
    (xs : list A) :
  Forall (fun x => keeps_static (visit x)) xs ->
  keeps_static (visitAll visit xs).
Proof.
  induction 1 as [|x xs Hx _ IH]; intros g.
  - apply same_static_refl.
  - cbn [visitAll]. apply same_static_step; [exact IH | apply Hx].
Qed.

Ltac static_chain sub :=
  repeat first
    [ apply same_static_refl
    | apply same_static_step;
      [ first [ apply keeps_static_visitExpression
              | sub
              | (intros ?; repeat split; reflexivity) ] | ] ].

Lemma keeps_static_visitStatement (s : Statement) :
  keeps_static (visitStatement s).
Proof.
  induction s as [name init|variable value|statements IH
                 |condition thn els IHt IHe|condition body IH| | |value
                 |expression] using Statement_ind_all; intros g.
  - cbn [visitStatement]. unfold visitVariableDeclaration.
    destruct init; static_chain fail.
  - cbn [visitStatement]. unfold visitAssignmentStatement. cbv beta.
    destruct (localVariables _ !! variable); static_chain fail.
  - cbn [visitStatement]. now apply keeps_static_visitAll.
  - cbn [visitStatement newLabel]. destruct els as [els|]; unfold skip;
      static_chain ltac:(first [exact (IHe els eq_refl) | exact IHt]).
  - cbn [visitStatement newLabel]. static_chain ltac:(exact IH).
  - cbn [visitStatement]. static_chain fail.
  - cbn [visitStatement]. static_chain fail.
  - cbn [visitStatement]. unfold visitReturnStatement, generateEpilogue.
    destruct value; static_chain fail.
  - cbn [visitStatement]. static_chain fail.
Qed.

(** ** Frame table *)

Lemma visitExpression_stackOffset (e : Expression) (g : CodeGen) :
  stackOffset (visitExpression e g) = stackOffset g.
Proof. now rewrite (only_output_visitExpression e g). Qed.

Lemma visitExpression_localVariables (e : Expression) (g : CodeGen) :
  localVariables (visitExpression e g) = localVariables g.
Proof. now rewrite (only_output_visitExpression e g). Qed.

Lemma int_sub_exact (a b : Z) : Int.in_range (a - b) -> Int.sub a b = a - b.
Proof. apply wrap_in_range. Qed.

Lemma visitAll_stackOffset (statements : list Statement) :
  Forall (fun s => forall g,
            Int.int_min <= stackOffset g - 4 * Z.of_nat (declarations s) ->
            stackOffset g <= Int.int_max ->
            stackOffset (visitStatement s g)
              = stackOffset g - 4 * Z.of_nat (declarations s)) statements ->
  forall g,
    Int.int_min
      <= stackOffset g - 4 * Z.of_nat (declarations (Block statements)) ->
    stackOffset g <= Int.int_max ->
    stackOffset (visitAll visitStatement statements g)
      = stackOffset g - 4 * Z.of_nat (declarations (Block statements)).
Proof.
  induction 1 as [|s ss Hs _ IH]; intros g Hlo Hhi.
  - cbn [visitAll declarations fold_right]. unfold skip. lia.
  - cbn [declarations fold_right] in *. cbn [visitAll].
    rewrite IH; rewrite ?Hs; lia.
Qed.

Lemma visitStatement_stackOffset (s : Statement) (g : CodeGen) :
  Int.int_min <= stackOffset g - 4 * Z.of_nat (declarations s) ->
  stackOffset g <= Int.int_max ->
  stackOffset (visitStatement s g)
    = stackOffset g - 4 * Z.of_nat (declarations s).
Proof.
  revert g.
  induction s as [name init|variable value|statements IH
                 |condition thn els IHt IHe|condition body IH| | |value
                 |expression] using Statement_ind_all; intros g Hlo Hhi.
  - cbn [declarations] in *. cbn [visitStatement].
    unfold visitVariableDeclaration.
    destruct init;
      cbn [stackOffset emit set_output set_stackOffset set_localVariables];
      rewrite ?visitExpression_stackOffset;
      apply int_sub_exact;
      unfold Int.in_range, Int.int_min, Int.int_max in *; lia.
  - cbn [visitStatement declarations]. unfold visitAssignmentStatement.
    cbv beta.
    destruct (localVariables _ !! variable);
      cbn [stackOffset emit set_output];
      rewrite ?visitExpression_stackOffset; lia.
  - cbn [visitStatement]. now apply visitAll_stackOffset.
  - cbn [declarations] in Hlo.
    cbn [visitStatement newLabel declarations].
    set (g3 := emit _ (emit _ (emit _ (visitExpression condition _)))).
    assert (H3 : stackOffset g3 = stackOffset g).
    { subst g3. cbn [stackOffset emit set_output].
      now rewrite visitExpression_stackOffset. }
    set (g4 := emitLabel _ (emit _ (visitStatement thn g3))).
    assert (H4 : stackOffset g4
                 = stackOffset g - 4 * Z.of_nat (declarations thn)).
    { subst g4. cbn [stackOffset emit emitLabel set_output].
      rewrite IHt; lia. }
    cbn [stackOffset emitLabel set_output].
    destruct els as [s|].
    + rewrite (IHe s eq_refl); lia.
    + unfold skip. lia.
  - cbn [declarations] in Hlo.
    cbn [visitStatement newLabel declarations].
    set (g3 := emit _ (emit _ (emit _ (visitExpression condition _)))).
    assert (H3 : stackOffset g3 = stackOffset g).
    { subst g3. cbn [stackOffset emit set_output].
      now rewrite visitExpression_stackOffset. }
    cbn [stackOffset emit emitLabel set_output].
    rewrite IH; lia.
  - cbn [visitStatement declarations stackOffset emit set_output]. lia.
  - cbn [visitStatement declarations stackOffset emit set_output]. lia.
  - cbn [visitStatement declarations]. unfold visitReturnStatement.
    destruct value;
      cbn [stackOffset emit set_output generateEpilogue];
      rewrite ?visitExpression_stackOffset; lia.
  - cbn [visitStatement declarations stackOffset emit set_output].
    rewrite visitExpression_stackOffset. lia.
Qed.

(** Entries of the frame table are never removed by a statement. *)
Lemma visitAll_keeps_entry (name : string) (statements : list Statement) :
  Forall (fun s => forall g,
            is_Some (localVariables g !! name) ->
            is_Some (localVariables (visitStatement s g) !! name))
    statements ->
  forall g,
    is_Some (localVariables g !! name) ->
    is_Some (localVariables (visitAll visitStatement statements g) !! name).
Proof.
  induction 1 as [|s ss Hs _ IH]; intros g Hg.
  - exact Hg.
  - cbn [visitAll]. apply IH, Hs, Hg.
Qed.

Ltac frame_simpl :=
  cbn [localVariables emit emitLabel set_output set_labelCounter
         set_stackOffset set_localVariables generateEpilogue];
  rewrite ?visitExpression_localVariables.

Lemma visitStatement_keeps_entry (name : string) (s : Statement)
    (g : CodeGen) :
  is_Some (localVariables g !! name) ->
  is_Some (localVariables (visitStatement s g) !! name).
Proof.
  revert g.
  induction s as [declared init|variable value|statements IH
                 |condition thn els IHt IHe|condition body IH| | |value
                 |expression] using Statement_ind_all; intros g Hg.
  - cbn [visitStatement]. unfold visitVariableDeclaration.
    destruct init; frame_simpl; apply lookup_insert_is_Some';
      right; frame_simpl; exact Hg.
  - cbn [visitStatement]. unfold visitAssignmentStatement. cbv beta.
    destruct (localVariables _ !! variable) eqn:E; frame_simpl; exact Hg.
  - cbn [visitStatement]. now apply visitAll_keeps_entry.
  - cbn [visitStatement newLabel]. frame_simpl.
    destruct els as [els|].
    + apply (IHe els eq_refl). frame_simpl. apply IHt. frame_simpl.
      frame_simpl. exact Hg.
    + unfold skip. frame_simpl. apply IHt. frame_simpl. frame_simpl.
      exact Hg.
  - cbn [visitStatement newLabel]. frame_simpl. apply IH. frame_simpl.
    frame_simpl. exact Hg.
  - exact Hg.
  - exact Hg.
  - cbn [visitStatement]. unfold visitReturnStatement.
    destruct value; frame_simpl; exact Hg.
  - cbn [visitStatement]. frame_simpl. exact Hg.
Qed.

Lemma visitStatement_declared (name : string) (s : Statement) (g : CodeGen) :
  declares name s = true ->
  is_Some (localVariables (visitStatement s g) !! name).
Proof.
  revert g.
  induction s as [declared init|variable value|statements IH
                 |condition thn els IHt IHe|condition body IH| | |value
                 |expression] using Statement_ind_all; intros g Hd;
    cbn [declares] in Hd; try discriminate.
  - apply String.eqb_eq in Hd as ->. cbn [visitStatement].
    unfold visitVariableDeclaration.
    destruct init; frame_simpl; apply lookup_insert_is_Some'; now left.
  - cbn [visitStatement]. revert g.
    induction IH as [|s ss Hs _ IHss]; intros g; [discriminate|].
    cbn [existsb] in Hd. cbn [visitAll].
    destruct (declares name s) eqn:Es.
    + apply visitAll_keeps_entry; [|now apply Hs].
      apply Forall_forall. intros s' _ g'.
      apply visitStatement_keeps_entry.
    + now apply IHss.
  - cbn [visitStatement newLabel]. frame_simpl.
    destruct (declares name thn) eqn:Et.
    + destruct els as [els|].
      * apply visitStatement_keeps_entry. frame_simpl. now apply IHt.
      * unfold skip. frame_simpl. now apply IHt.
    + destruct els as [els|]; [|discriminate].
      now apply (IHe els eq_refl).
  - cbn [visitStatement newLabel]. frame_simpl. now apply IH.
Qed.

Lemma visitStatement_undeclared (name : string) (s : Statement)
    (g : CodeGen) :
  declares name s = false ->
  localVariables (visitStatement s g) !! name = localVariables g !! name.
Proof.
  revert g.
  induction s as [declared init|variable value|statements IH
                 |condition thn els IHt IHe|condition body IH| | |value
                 |expression] using Statement_ind_all; intros g Hd;
    cbn [declares] in Hd.
  - apply String.eqb_neq in Hd. cbn [visitStatement].
    unfold visitVariableDeclaration.
    destruct init; frame_simpl; rewrite lookup_insert_ne by exact Hd;
      frame_simpl; reflexivity.
  - cbn [visitStatement]. unfold visitAssignmentStatement. cbv beta.
    destruct (localVariables _ !! variable) eqn:E; frame_simpl; reflexivity.
  - cbn [visitStatement]. revert g.
    induction IH as [|s ss Hs _ IHss]; intros g; [reflexivity|].
    cbn [existsb] in Hd. apply orb_false_iff in Hd as [Hd1 Hd2].
    cbn [visitAll]. rewrite (IHss Hd2). now apply Hs.
  - apply orb_false_iff in Hd as [Hd1 Hd2].
    cbn [visitStatement newLabel]. frame_simpl.
    destruct els as [els|].
    + rewrite (IHe els eq_refl) by exact Hd2. frame_simpl.
      rewrite IHt by exact Hd1. frame_simpl. reflexivity.
    + unfold skip. frame_simpl. rewrite IHt by exact Hd1. frame_simpl.
      reflexivity.
  - cbn [visitStatement newLabel]. frame_simpl.
    rewrite IH by exact Hd. frame_simpl. reflexivity.
  - reflexivity.
  - reflexivity.
  - cbn [visitStatement]. unfold visitReturnStatement.
    destruct value; frame_simpl; reflexivity.
  - cbn [visitStatement]. frame_simpl. reflexivity.
Qed.

(** ** The signature table is never read *)

Lemma ignores_functions_step (f : CodeGen -> CodeGen) (table : gmap string FunctionInfo)
    (x y : CodeGen) :
  ignores_functions f -> x = set_functions table y ->
  f x = set_functions table (f y).
Proof. intros Hf ->. apply Hf. Qed.

Lemma ignores_functions_visitAll {A : Type} (visit : A -> CodeGen -> CodeGen)
    (xs : list A) :
  Forall (fun x => ignores_functions (visit x)) xs ->
  ignores_functions (visitAll visit xs).
Proof.
  induction 1 as [|x xs Hx _ IH]; intros table g.
  - reflexivity.
  - cbn [visitAll]. now rewrite Hx, IH.
Qed.

Ltac functions_chain sub :=
  repeat first
    [ reflexivity
    | apply ignores_functions_step;
      [ first [ sub | (intros ? ?; reflexivity) ] | ] ].

Lemma ignores_functions_optimizer (visitLeft : CodeGen -> CodeGen)
    (op : BinaryOp) (lhs rhs : Expression) :
  ignores_functions visitLeft ->
  ignores_functions (optimizeConstantFolding visitLeft op lhs rhs).
Proof.
  intros Hl table g. unfold optimizeConstantFolding.
  change (optimizationsEnabled (set_functions table g))
    with (optimizationsEnabled g).
  change (isConstantExpression (Some lhs) (set_functions table g))
    with (isConstantExpression (Some lhs) g).
  change (isConstantExpression (Some rhs) (set_functions table g))
    with (isConstantExpression (Some rhs) g).
  change (evaluateConstantExpression (Some lhs) (set_functions table g))
    with (evaluateConstantExpression (Some lhs) g).
  change (evaluateConstantExpression (Some rhs) (set_functions table g))
    with (evaluateConstantExpression (Some rhs) g).
  repeat match goal with
         | |- context [if ?b then _ else _] => destruct b
         | |- context [match ?o with ADD => _ | _ => _ end] => destruct o
         | |- context [match ?o with Some _ => _ | None => _ end] =>
             destruct o
         end;
    first [ reflexivity | apply Hl ].
Qed.

Lemma ignores_functions_visitExpression (e : Expression) :
  ignores_functions (visitExpression e).
Proof.
  induction e as [value|name|op operand IH|op lhs rhs IHl IHr|f args IH]
    using Expression_ind_all; intros table g.
  - reflexivity.
  - cbn [visitExpression]. unfold visitIdentifier.
    change (localVariables (set_functions table g)) with (localVariables g).
    now destruct (localVariables g !! name).
  - cbn [visitExpression].
    destruct op; cbn [emitUnaryOp]; unfold skip;
      functions_chain ltac:(exact IH).
  - cbn [visitExpression].
    change (optimizationsEnabled (set_functions table g))
      with (optimizationsEnabled g).
    destruct (optimizationsEnabled g).
    + now apply ignores_functions_optimizer.
    + destruct op; cbn [emitBinaryOp];
        functions_chain ltac:(first [exact IHr | exact IHl]).
  - cbn [visitExpression].
    functions_chain ltac:(now apply ignores_functions_visitAll).
Qed.

Lemma ignores_functions_visitStatement (s : Statement) :
  ignores_functions (visitStatement s).
Proof.
  induction s as [name init|variable value|statements IH
                 |condition thn els IHt IHe|condition body IH| | |value
                 |expression] using Statement_ind_all; intros table g.
  - cbn [visitStatement]. unfold visitVariableDeclaration.
    destruct init as [init|]; [|reflexivity].
    rewrite (ignores_functions_visitExpression init table g). reflexivity.
  - cbn [visitStatement]. unfold visitAssignmentStatement. cbv beta.
    rewrite (ignores_functions_visitExpression value table g).
    cbn [localVariables emit set_output set_functions].
    now destruct (localVariables _ !! variable).
  - cbn [visitStatement]. now apply ignores_functions_visitAll.
  - cbn [visitStatement newLabel labelCounter set_labelCounter set_functions].
    destruct els as [els|]; unfold skip;
      functions_chain ltac:(first [ apply ignores_functions_visitExpression
                                  | exact (IHe els eq_refl)
                                  | exact IHt ]).
  - cbn [visitStatement newLabel labelCounter set_labelCounter set_functions].
    functions_chain ltac:(first [ apply ignores_functions_visitExpression
                                | exact IH ]).
  - reflexivity.
  - reflexivity.
  - cbn [visitStatement]. unfold visitReturnStatement.
    destruct value as [value|]; [|reflexivity].
    rewrite (ignores_functions_visitExpression value table g). reflexivity.
  - cbn [visitStatement].
    rewrite (ignores_functions_visitExpression expression table g).
    reflexivity.
Qed.

Lemma ignores_functions_visitFunctionDefinition (f : FunctionDefinition) :
  ignores_functions (visitFunctionDefinition f).
Proof.
  intros table g. unfold visitFunctionDefinition.
  functions_chain ltac:(apply ignores_functions_visitStatement).
Qed.

Lemma ignores_functions_visitCompilationUnit (unit : CompilationUnit) :
  ignores_functions (visitCompilationUnit unit).
Proof.
  unfold visitCompilationUnit. apply ignores_functions_visitAll.
  apply Forall_forall. intros f _.
  apply ignores_functions_visitFunctionDefinition.
Qed.

(** A function definition starts from a cleared frame table. *)
Lemma visitCompilationUnit_frame_reset (unit : CompilationUnit)
    (locals : gmap string Z) (current : string) (g : CodeGen) :
  output (visitCompilationUnit unit
            (set_localVariables locals (set_currentFunction current g)))
  = output (visitCompilationUnit unit g).
Proof.
  unfold visitCompilationUnit.
  destruct (cu_functions unit) as [|f fs]; reflexivity.
Qed.

Lemma generate_text_from_fresh (unit : CompilationUnit)
    (funcTable : gmap string FunctionInfo) (g : CodeGen) :
  fst (generate unit funcTable g)
  = fst (generate unit ∅
           (fresh (optimizationsEnabled g) (constantValues g))).
Proof.
  unfold generate. cbn [fst].
  set (start := emit ".global main" (emit ".text" (emit ".data"
                  (set_labelCounter 0 (set_stackOffset 0
                     (set_functions ∅ (set_output ""
                        (fresh (optimizationsEnabled g)
                           (constantValues g))))))))).
  transitivity
    (output (visitCompilationUnit unit
               (set_functions funcTable
                  (set_localVariables (localVariables g)
                     (set_currentFunction (currentFunction g) start))))).
  - reflexivity.
  - rewrite ignores_functions_visitCompilationUnit.
    cbn [output set_functions].
    apply visitCompilationUnit_frame_reset.
Qed.

(** ** With optimizations disabled the constants table is never read *)

Lemma ignores_constants_step (f : CodeGen -> CodeGen) (consts : gmap string Z)
    (g x y : CodeGen) :
  ignores_constants f ->
  optimizationsEnabled g = false ->
  same_settings g y ->
  x = set_constantValues consts y ->
  f x = set_constantValues consts (f y).
Proof.
  intros Hf Hg [Hy _] ->. apply Hf. congruence.
Qed.

Lemma ignores_constants_visitAll {A : Type} (visit : A -> CodeGen -> CodeGen)
    (xs : list A) :
  Forall (fun x => ignores_constants (visit x)) xs ->
  Forall (fun x => keeps_settings (visit x)) xs ->
  ignores_constants (visitAll visit xs).
Proof.
  induction 1 as [|x xs Hx _ IH]; intros Hk consts g Hg.
  - reflexivity.
  - apply Forall_cons_iff in Hk as [Hkx Hk].
    cbn [visitAll]. rewrite (Hx consts g Hg). apply (IH Hk).
    destruct (Hkx g) as [E _]. congruence.
Qed.

Ltac constants_chain consts g sub :=
  repeat first
    [ reflexivity
    | apply (ignores_constants_step _ consts g);
      [ first [ sub | (intros ? ? ?; reflexivity) ]
      | assumption
      | settings_of_chain
      | ] ].

Lemma ignores_constants_visitExpression (e : Expression) :
  ignores_constants (visitExpression e).
Proof.
  induction e as [value|name|op operand IH|op lhs rhs IHl IHr|f args IH]
    using Expression_ind_all; intros consts g Hg.
  - reflexivity.
  - cbn [visitExpression]. unfold visitIdentifier.
    change (localVariables (set_constantValues consts g))
      with (localVariables g).
    now destruct (localVariables g !! name).
  - cbn [visitExpression].
    destruct op; cbn [emitUnaryOp]; unfold skip;
      constants_chain consts g ltac:(exact IH).
  - cbn [visitExpression].
    change (optimizationsEnabled (set_constantValues consts g))
      with (optimizationsEnabled g).
    rewrite Hg.
    destruct op; cbn [emitBinaryOp];
      constants_chain consts g ltac:(first [exact IHr | exact IHl]).
  - cbn [visitExpression].
    assert (ignores_constants (visitAll visitExpression args)) as Hargs.
    { apply ignores_constants_visitAll; [exact IH|].
      apply Forall_forall. intros a _. apply keeps_settings_visitExpression. }
    assert (keeps_settings (visitAll visitExpression args)) as Hkeep.
    { apply keeps_settings_visitAll, Forall_forall. intros a _.
      apply keeps_settings_visitExpression. }
    rewrite (Hargs consts g Hg). reflexivity.
Qed.

Lemma ignores_constants_visitStatement (s : Statement) :
  ignores_constants (visitStatement s).
Proof.
  induction s as [name init|variable value|statements IH
                 |condition thn els IHt IHe|condition body IH| | |value
                 |expression] using Statement_ind_all; intros consts g Hg.
  - cbn [visitStatement]. unfold visitVariableDeclaration.
    destruct init as [init|]; [|reflexivity].
    rewrite (ignores_constants_visitExpression init consts g Hg).
    reflexivity.
  - cbn [visitStatement]. unfold visitAssignmentStatement. cbv beta.
    rewrite (ignores_constants_visitExpression value consts g Hg).
    cbn [localVariables emit set_output set_constantValues].
    now destruct (localVariables _ !! variable).
  - cbn [visitStatement].
    apply ignores_constants_visitAll; [exact IH| |exact Hg].
    apply Forall_forall. intros s _. apply keeps_settings_visitStatement.
  - cbn [visitStatement newLabel labelCounter set_labelCounter
           set_constantValues].
    destruct els as [els|]; unfold skip;
      constants_chain consts g
        ltac:(first [ apply ignores_constants_visitExpression
                    | exact (IHe els eq_refl)
                    | exact IHt ]).
  - cbn [visitStatement newLabel labelCounter set_labelCounter
           set_constantValues].
    constants_chain consts g
      ltac:(first [ apply ignores_constants_visitExpression | exact IH ]).
  - reflexivity.
  - reflexivity.
  - cbn [visitStatement]. unfold visitReturnStatement.
    destruct value as [value|]; [|reflexivity].
    rewrite (ignores_constants_visitExpression value consts g Hg).
    reflexivity.
  - cbn [visitStatement].
    rewrite (ignores_constants_visitExpression expression consts g Hg).
    reflexivity.
Qed.

Lemma keeps_settings_visitFunctionDefinition (f : FunctionDefinition) :
  keeps_settings (visitFunctionDefinition f).
Proof.
  intros g. unfold visitFunctionDefinition, generatePrologue, generateEpilogue.
  settings_of_chain.
Qed.

Lemma keeps_settings_visitCompilationUnit (unit : CompilationUnit) :
  keeps_settings (visitCompilationUnit unit).
Proof.
  unfold visitCompilationUnit. apply keeps_settings_visitAll, Forall_forall.
  intros f _. apply keeps_settings_visitFunctionDefinition.
Qed.

Lemma ignores_constants_visitFunctionDefinition (f : FunctionDefinition) :
  ignores_constants (visitFunctionDefinition f).
Proof.
  intros consts g Hg.
  unfold visitFunctionDefinition, generatePrologue, generateEpilogue.
  constants_chain consts g ltac:(apply ignores_constants_visitStatement).
Qed.

Lemma ignores_constants_visitCompilationUnit (unit : CompilationUnit) :
  ignores_constants (visitCompilationUnit unit).
Proof.
  unfold visitCompilationUnit. apply ignores_constants_visitAll.
  - apply Forall_forall. intros f _.
    apply ignores_constants_visitFunctionDefinition.
  - apply Forall_forall. intros f _.
    apply keeps_settings_visitFunctionDefinition.
Qed.

Lemma generate_text_disabled (unit : CompilationUnit)
    (funcTable : gmap string FunctionInfo) (g : CodeGen) :
  optimizationsEnabled g = false ->
  fst (generate unit funcTable g) = fst (generate unit ∅ (fresh false ∅)).
Proof.
  intros Hg. rewrite generate_text_from_fresh, Hg.
  unfold generate. cbn [fst].
  set (start := emit ".global main" (emit ".text" (emit ".data"
                  (set_labelCounter 0 (set_stackOffset 0
                     (set_functions ∅ (set_output "" (fresh false ∅)))))))).
  transitivity
    (output (visitCompilationUnit unit
               (set_constantValues (constantValues g) start))).
  - reflexivity.
  - now rewrite ignores_constants_visitCompilationUnit.
Qed.

(** ** Stack-pointer effect of a function definition *)

Lemma after_prefix_colon (p s imm : string) :
  colon_free p = true ->
  after_prefix p (s +:+ ":") = Some imm ->
  exists t, imm = t +:+ ":".
Proof.
  revert s. induction p as [|a p IH]; intros s Hp H.
  - injection H as <-. now exists s.
  - cbn [colon_free] in Hp. apply andb_true_iff in Hp as [Ha Hp].
    apply negb_true_iff in Ha.
    destruct s as [|b s].
    + change ("" +:+ ":") with ":" in H. cbn [after_prefix] in H.
      rewrite Ha in H. discriminate H.
    + rewrite append_cons in H. cbn [after_prefix] in H.
      destruct (Ascii.eqb a b); [|discriminate H]. now apply (IH s).
Qed.

Lemma uint_of_string_colon (t : string) :
  NilEmpty.uint_of_string (t +:+ ":") = None.
Proof.
  induction t as [|c t IH]; [reflexivity|].
  rewrite append_cons. cbn [NilEmpty.uint_of_string]. now rewrite IH.
Qed.

Lemma of_string_colon (t : string) : of_string (t +:+ ":") = None.
Proof.
  unfold of_string. destruct t as [|c t]; [reflexivity|].
  rewrite append_cons. unfold NilZero.int_of_string.
  destruct (Ascii.eqb c "-").
  - unfold NilZero.uint_of_string.
    destruct (t +:+ ":") eqn:E; [reflexivity|].
    rewrite <- E, uint_of_string_colon. reflexivity.
  - unfold NilZero.uint_of_string. rewrite <- append_cons.
    now rewrite uint_of_string_colon.
Qed.

(** A label definition never reads as a stack-pointer adjustment. *)
Lemma sp_adjust_label (name : string) : sp_adjust (name +:+ ":") = 0.
Proof.
  unfold sp_adjust.
  destruct (after_prefix "addi sp, sp, " (name +:+ ":")) as [imm|] eqn:E;
    [|reflexivity].
  apply after_prefix_colon in E as [t ->]; [|reflexivity].
  now rewrite of_string_colon.
Qed.

Lemma function_lowered (f : FunctionDefinition) (g : CodeGen) :
  nlfree (fd_name f) = true ->
  statement_names_ok (fd_body f) = true ->
  (optimizationsEnabled g = true -> statement_optimized g (fd_body f) = true) ->
  Lowered g (visitFunctionDefinition f g)
    (8 * Z.of_nat (returns (fd_body f))).
Proof.
  intros Hname Hbody Hopt.
  unfold visitFunctionDefinition, generatePrologue, generateEpilogue.
  eapply Lowered_eq;
    [ lowered_chain
        ltac:(first
                [ apply Lowered_emitLabel; [assumption | apply sp_adjust_label]
                | apply statement_lowered;
                  [ assumption
                  | eapply (statement_optimized_transfer _ g);
                    [ settings_of_chain | eassumption ] ] ])
    | lia ].
Qed.

(** ** Running the lowering of an operator *)

Lemma pop_operands (a b : Z) :
  exec_lines ["lw t1, 0(sp)"; "addi sp, sp, 4"; "lw t0, 0(sp)"]
    (pushed_two a b) = Some (popped_two a b).
Proof. vm_compute. reflexivity. Qed.

Lemma stack_top_store (v : Z) (m : Machine) :
  stack_top (store (sp m) v m) = v.
Proof.
  unfold stack_top, load, store. cbn [mem sp].
  now rewrite lookup_insert_eq.
Qed.

Lemma binary_tail_run (opcode : list string) (a b : Z) (m' : Machine) :
  exec_lines opcode (popped_two a b) = Some m' ->
  option_map stack_top (exec_lines (binary_tail opcode) (pushed_two a b))
  = Some (t0 m').
Proof.
  intros H. unfold binary_tail.
  rewrite exec_lines_app, pop_operands, exec_lines_app, H.
  cbn [exec_lines].
  change (exec_line "sw t0, 0(sp)" m') with (Some (store (sp m') (t0 m') m')).
  cbn [option_map]. now rewrite stack_top_store.
Qed.

Lemma wrap_zero_iff (z : Z) :
  - Int.modulus < z < Int.modulus -> (Int.wrap z =? 0) = (z =? 0).
Proof.
  unfold Int.wrap, Int.modulus, Int.int_min. intros H.
  destruct (Z.eqb_spec z 0) as [->|Hz]; [reflexivity|].
  apply Z.eqb_neq. intros E.
  assert (Hm : (z - -2147483648) mod 4294967296 = 2147483648) by lia.
  destruct (Z_le_gt_dec 0 z).
  - destruct (Z_lt_ge_dec z 2147483648).
    + rewrite Z.mod_small in Hm by lia. lia.
    + replace (z - -2147483648) with ((z - 2147483648) + 1 * 4294967296) in Hm
        by lia.
      rewrite Z.mod_add, Z.mod_small in Hm by lia. lia.
  - destruct (Z_lt_ge_dec z (-2147483648)).
    + replace (z - -2147483648)
        with ((z + 2147483648 + 4294967296) + (-1) * 4294967296) in Hm by lia.
      rewrite Z.mod_add, Z.mod_small in Hm by lia. lia.
    + rewrite Z.mod_small in Hm by lia. lia.
Qed.

Lemma operator_runs (op : BinaryOp) (a b v : Z) :
  Int.in_range a -> Int.in_range b ->
  expected_word op a b = Some v ->
  option_map stack_top
    (run (output (visitExpression
                    (BinaryExpression op (NumberLiteral a) (NumberLiteral b))
                    (fresh false ∅))) machine0) = Some v.
Proof.
  intros Ha Hb Hv.
  assert (Hdiff : - Int.modulus < a - b < Int.modulus)
    by (unfold Int.in_range, Int.int_min, Int.int_max, Int.modulus in *; lia).
  destruct op; cbn [expected_word] in Hv; try discriminate;
    injection Hv as <-.
  - rewrite (binary_of_literals_text ADD a b ["add t0, t0, t1"])
      by (intros g0; cbn [emitBinaryOp]; emit_block).
    rewrite run_binary_of_literals by reflexivity. fold (pushed_two a b).
    now rewrite (binary_tail_run ["add t0, t0, t1"] a b
                   (set_t0 (Int.add a b) (popped_two a b)) eq_refl).
  - rewrite (binary_of_literals_text SUB a b ["sub t0, t0, t1"])
      by (intros g0; cbn [emitBinaryOp]; emit_block).
    rewrite run_binary_of_literals by reflexivity. fold (pushed_two a b).
    now rewrite (binary_tail_run ["sub t0, t0, t1"] a b
                   (set_t0 (Int.sub a b) (popped_two a b)) eq_refl).
  - rewrite (binary_of_literals_text MUL a b ["mul t0, t0, t1"])
      by (intros g0; cbn [emitBinaryOp]; emit_block).
    rewrite run_binary_of_literals by reflexivity. fold (pushed_two a b).
    now rewrite (binary_tail_run ["mul t0, t0, t1"] a b
                   (set_t0 (Int.mul a b) (popped_two a b)) eq_refl).
  - rewrite (binary_of_literals_text LT a b ["slt t0, t0, t1"])
      by (intros g0; cbn [emitBinaryOp]; emit_block).
    rewrite run_binary_of_literals by reflexivity. fold (pushed_two a b).
    now rewrite (binary_tail_run ["slt t0, t0, t1"] a b
                   (set_t0 (bool_word (a <? b)) (popped_two a b)) eq_refl).
  - rewrite (binary_of_literals_text LE a b
               ["slt t2, t1, t0"; "xori t0, t2, 1"])
      by (intros g0; cbn [emitBinaryOp]; emit_block).
    rewrite run_binary_of_literals by reflexivity. fold (pushed_two a b).
    rewrite (binary_tail_run ["slt t2, t1, t0"; "xori t0, t2, 1"] a b
               (set_t0 (Z.lxor (bool_word (b <? a)) 1)
                  (set_t2 (bool_word (b <? a)) (popped_two a b))) eq_refl).
    cbn [t0 set_t0]. f_equal.
    destruct (Z.ltb_spec b a), (Z.leb_spec a b); try lia; reflexivity.
  - rewrite (binary_of_literals_text GT a b ["slt t0, t1, t0"])
      by (intros g0; cbn [emitBinaryOp]; emit_block).
    rewrite run_binary_of_literals by reflexivity. fold (pushed_two a b).
    rewrite (binary_tail_run ["slt t0, t1, t0"] a b
               (set_t0 (bool_word (b <? a)) (popped_two a b)) eq_refl).
    cbn [t0 set_t0]. now rewrite Z.gtb_ltb.
  - rewrite (binary_of_literals_text GE a b
               ["slt t2, t0, t1"; "xori t0, t2, 1"])
      by (intros g0; cbn [emitBinaryOp]; emit_block).
    rewrite run_binary_of_literals by reflexivity. fold (pushed_two a b).
    rewrite (binary_tail_run ["slt t2, t0, t1"; "xori t0, t2, 1"] a b
               (set_t0 (Z.lxor (bool_word (a <? b)) 1)
                  (set_t2 (bool_word (a <? b)) (popped_two a b))) eq_refl).
    cbn [t0 set_t0]. f_equal. rewrite Z.geb_leb.
    destruct (Z.ltb_spec a b), (Z.leb_spec b a); try lia; reflexivity.
  - rewrite (binary_of_literals_text EQ a b
               ["sub t0, t0, t1"; "seqz t0, t0"])
      by (intros g0; cbn [emitBinaryOp]; emit_block).
    rewrite run_binary_of_literals by reflexivity. fold (pushed_two a b).
    rewrite (binary_tail_run ["sub t0, t0, t1"; "seqz t0, t0"] a b
               (set_t0 (bool_word (Int.sub a b =? 0))
                  (set_t0 (Int.sub a b) (popped_two a b))) eq_refl).
    cbn [t0 set_t0]. f_equal. unfold Int.sub.
    rewrite (wrap_zero_iff _ Hdiff).
    destruct (Z.eqb_spec (a - b) 0), (Z.eqb_spec a b); try lia; reflexivity.
  - rewrite (binary_of_literals_text NE a b
               ["sub t0, t0, t1"; "snez t0, t0"])
      by (intros g0; cbn [emitBinaryOp]; emit_block).
    rewrite run_binary_of_literals by reflexivity. fold (pushed_two a b).
    rewrite (binary_tail_run ["sub t0, t0, t1"; "snez t0, t0"] a b
               (set_t0 (bool_word (negb (Int.sub a b =? 0)))
                  (set_t0 (Int.sub a b) (popped_two a b))) eq_refl).
    cbn [t0 set_t0]. f_equal. unfold Int.sub.
    rewrite (wrap_zero_iff _ Hdiff).
    destruct (Z.eqb_spec (a - b) 0), (Z.eqb_spec a b); try lia; reflexivity.
Qed.

Lemma unary_of_literal_text (op : UnaryOp) (a : Z) (opt : bool)
    (opcode : list string) :
  (forall g, emitUnaryOp op g = set_output (output g +:+ unlines opcode) g) ->
  output (visitExpression (UnaryExpression op (NumberLiteral a))
            (fresh opt ∅))
  = unlines (push_immediate a ++ ["lw t0, 0(sp)"] ++ opcode ++
             ["sw t0, 0(sp)"]).
Proof.
  intros Hop. cbn [visitExpression].
  unfold visitNumberLiteral. rewrite push_immediate_emitted.
  cbn [emit output set_output]. rewrite Hop.
  cbn [emit output set_output fresh].
  rewrite !unlines_app.
  cbn [unlines fold_right]. rewrite ?append_assoc, ?append_nil_r.
  reflexivity.
Qed.

Lemma reload_operand (a : Z) :
  exec_lines ["lw t0, 0(sp)"] (pushed_one a) = Some (set_t0 a (pushed_one a)).
Proof. vm_compute. reflexivity. Qed.

Lemma unary_tail_run (opcode : list string) (a : Z) (m' : Machine) :
  forallb nlfree opcode = true ->
  exec_lines opcode (set_t0 a (pushed_one a)) = Some m' ->
  option_map stack_top
    (run (unlines (push_immediate a ++ ["lw t0, 0(sp)"] ++ opcode ++
                   ["sw t0, 0(sp)"])) machine0)
  = Some (t0 m').
Proof.
  intros Hnl H.
  rewrite run_unlines
    by (rewrite !forallb_app, push_immediate_nlfree, Hnl; reflexivity).
  rewrite exec_lines_app, exec_push_immediate.
  change (store _ a _) with (pushed_one a).
  rewrite exec_lines_app, reload_operand, exec_lines_app, H.
  cbn [exec_lines].
  change (exec_line "sw t0, 0(sp)" m') with (Some (store (sp m') (t0 m') m')).
  cbn [option_map]. now rewrite stack_top_store.
Qed.

Lemma unary_operator_runs (op : UnaryOp) (a : Z) (opt : bool) :
  option_map stack_top
    (run (output (visitExpression (UnaryExpression op (NumberLiteral a))
                    (fresh opt ∅))) machine0)
  = Some (expected_unary_word op a).
Proof.
  destruct op.
  - rewrite (unary_of_literal_text PLUS a opt [])
      by (intros g0; cbn [emitUnaryOp]; unfold skip; cbn [unlines fold_right];
          now rewrite append_nil_r, set_output_id).
    exact (unary_tail_run [] a (set_t0 a (pushed_one a)) eq_refl eq_refl).
  - rewrite (unary_of_literal_text MINUS a opt ["neg t0, t0"])
      by (intros g0; cbn [emitUnaryOp]; emit_block).
    exact (unary_tail_run ["neg t0, t0"] a
             (set_t0 (Int.sub 0 a) (set_t0 a (pushed_one a)))
             eq_refl eq_refl).
  - rewrite (unary_of_literal_text NOT a opt ["seqz t0, t0"])
      by (intros g0; cbn [emitUnaryOp]; emit_block).
    exact (unary_tail_run ["seqz t0, t0"] a
             (set_t0 (bool_word (a =? 0)) (set_t0 a (pushed_one a)))
             eq_refl eq_refl).
Qed.

(** ** Running a folded constant *)

Lemma folded_literals_run (op : BinaryOp) (a b v : Z) :
  arith_value op a b = Some v ->
  fold_undefined op (NumberLiteral a) (NumberLiteral b) (fresh true ∅)
    = false ->
  option_map stack_top
    (run (output (visitExpression
                    (BinaryExpression op (NumberLiteral a) (NumberLiteral b))
                    (fresh true ∅))) machine0) = Some (Int.wrap v).
Proof.
  intros Hv Hdef.
  rewrite (fold_success (fresh true ∅) eq_refl op (NumberLiteral a)
             (NumberLiteral b) v eq_refl eq_refl Hv Hdef).
  cbn [output set_output fresh].
  change (EmptyString +:+ unlines (push_immediate (Int.wrap v)))
    with (unlines (push_immediate (Int.wrap v))).
  rewrite run_unlines by apply push_immediate_nlfree.
  rewrite exec_push_immediate. cbn [option_map]. apply (f_equal Some).
  apply (stack_top_store (Int.wrap v)
           (set_sp (Int.add (sp machine0) (-4)) (set_t0 (Int.wrap v) machine0))).
Qed.

(** * Part VI: further properties *)

(** X1.  Lowering an expression only appends text to the output buffer:
    the frame table, the stack offset, the label counter, the tables and
    the switches of the generator are left as they were, and the earlier
    output is kept as a prefix. *)
Theorem expression_lowering_only_appends (e : Expression) (g : CodeGen) :
  exists code, visitExpression e g = set_output (output g +:+ code) g.
Proof.
  destruct (appends_visitExpression e g) as [code E]. exists code.
  rewrite (only_output_visitExpression e g). now rewrite E.
Qed.

(** X2.  Every expression whose names are single-line, lowered with
    optimizations disabled (or enabled when every binary expression the
    lowering reaches is folded or simplified and no fold evaluates
    [INT_MIN / -1] or [INT_MIN % -1]), appends complete lines whose
    stack-pointer adjustments add up to -4: it pushes exactly one word,
    whatever its shape and however many arguments its calls take. *)
Theorem expression_pushes_one_word (e : Expression) (g : CodeGen) :
  expression_names_ok e = true ->
  (optimizationsEnabled g = true -> every_binary_optimized g e = true) ->
  exists code,
    output (visitExpression e g) = output g +:+ code /\ net_sp code = -4.
Proof.
  intros Hn Ho. apply Lowered_net_sp. now apply expression_lowered.
Qed.

Lemma expression_pushes_one_word_witness :
  exists code,
    output (visitExpression
              (FunctionCall "f"
                 [ BinaryExpression SUB (Identifier "a") (NumberLiteral 1);
                   UnaryExpression MINUS (Identifier "b");
                   FunctionCall "g" [] ])
              (fresh false ∅))
      = output (fresh false ∅) +:+ code /\
    net_sp code = -4.
Proof.
  apply (expression_pushes_one_word
           (FunctionCall "f"
              [ BinaryExpression SUB (Identifier "a") (NumberLiteral 1);
                UnaryExpression MINUS (Identifier "b");
                FunctionCall "g" [] ])
           (fresh false ∅)).
  - reflexivity.
  - intros H. discriminate H.
Defined.

(** X3.  The output buffer only grows: lowering a statement, a function
    definition or a compilation unit keeps the text emitted so far as a
    prefix of the buffer. *)
Theorem output_only_grows :
  (forall s g, exists code,
      output (visitStatement s g) = output g +:+ code) /\
  (forall f g, exists code,
      output (visitFunctionDefinition f g) = output g +:+ code) /\
  (forall unit g, exists code,
      output (visitCompilationUnit unit g) = output g +:+ code).
Proof.
  split; [|split].
  - intros s g. apply appends_visitStatement.
  - intros f g. apply appends_visitFunctionDefinition.
  - intros unit g. apply appends_visitCompilationUnit.
Qed.

(** X4.  Whatever the buffer held before, the text [generate] returns
    starts with the three directives [.data], [.text], [.global main], one
    per line, followed by the text of the unit. *)
Theorem generate_starts_with_directives
    (unit : CompilationUnit) (funcTable : gmap string FunctionInfo)
    (g : CodeGen) :
  exists code,
    fst (generate unit funcTable g)
    = unlines [".data"; ".text"; ".global main"] +:+ code.
Proof.
  unfold generate. cbn [fst].
  match goal with
  | |- context [visitCompilationUnit unit ?g0] =>
      destruct (appends_visitCompilationUnit unit g0) as [code E]
  end.
  exists code. rewrite E. reflexivity.
Qed.

(** X5.  Lowering a statement never writes the signature table, the
    current-function name, the optimization switch or the known-constants
    table. *)
Theorem statement_keeps_static_fields (s : Statement) (g : CodeGen) :
  functions (visitStatement s g) = functions g /\
  currentFunction (visitStatement s g) = currentFunction g /\
  optimizationsEnabled (visitStatement s g) = optimizationsEnabled g /\
  constantValues (visitStatement s g) = constantValues g.
Proof. apply keeps_static_visitStatement. Qed.

(** X6.  Declaration then use.  After a declaration of [name], whatever
    [name] meant before (a global or an earlier local), the frame table
    maps [name] to the new slot, one word below the previous stack offset;
    an identifier [name] is lowered as a load from that slot and an
    assignment to [name] as a store to it. *)
Theorem declaration_then_use
    (name : string) (init : option Expression) (value : Expression)
    (g : CodeGen) :
  let g' := visitStatement (VariableDeclaration name init) g in
  let slot := "(fp)" in
  stackOffset g' = Int.sub (stackOffset g) 4 /\
  localVariables g' = <[name := stackOffset g']> (localVariables g) /\
  visitExpression (Identifier name) g' =
    set_output
      (output g' +:+
       unlines ["lw t0, " +:+ to_string (stackOffset g') +:+ slot;
                "addi sp, sp, -4"; "sw t0, 0(sp)"]) g' /\
  visitStatement (AssignmentStatement name value) g' =
    emit ("sw t0, " +:+ to_string (stackOffset g') +:+ slot)
      (emit "addi sp, sp, 4" (emit "lw t0, 0(sp)" (visitExpression value g'))).
Proof.
  intros g' slot.
  assert (Hoff : stackOffset g' = Int.sub (stackOffset g) 4).
  { subst g'. cbn [visitStatement]. unfold visitVariableDeclaration.
    destruct init;
      cbn [stackOffset emit set_output set_stackOffset set_localVariables];
      now rewrite ?visitExpression_stackOffset. }
  assert (Hloc : localVariables g' = <[name := stackOffset g']> (localVariables g)).
  { rewrite Hoff. subst g'. cbn [visitStatement].
    unfold visitVariableDeclaration.
    destruct init;
      cbn [localVariables stackOffset emit set_output set_stackOffset
             set_localVariables];
      now rewrite ?visitExpression_stackOffset,
        ?visitExpression_localVariables. }
  assert (Hlook : localVariables g' !! name = Some (stackOffset g'))
    by (rewrite Hloc; apply lookup_insert_eq).
  split; [exact Hoff|]. split; [exact Hloc|]. split.
  - clearbody g'. cbn [visitExpression]. unfold visitIdentifier.
    rewrite Hlook. subst slot. emit_block.
  - clearbody g'. cbn [visitStatement]. unfold visitAssignmentStatement.
    cbv beta. cbn [localVariables emit set_output].
    rewrite visitExpression_localVariables, Hlook. reflexivity.
Qed.

(** X7.  Frame slots are allocated in declaration order, one word each,
    and blocks, branches and loop bodies open no scope: as long as the
    [int] stack offset does not overflow, lowering a statement lowers the
    stack offset by four times the number of declarations it contains,
    nested ones included. *)
Theorem stack_offset_counts_declarations (s : Statement) (g : CodeGen) :
  Int.int_min <= stackOffset g - 4 * Z.of_nat (declarations s) ->
  stackOffset g <= Int.int_max ->
  stackOffset (visitStatement s g)
    = stackOffset g - 4 * Z.of_nat (declarations s).
Proof. apply visitStatement_stackOffset. Qed.

Lemma stack_offset_counts_declarations_witness :
  stackOffset
    (visitStatement
       (Block
          [ VariableDeclaration "a" None;
            WhileStatement (Identifier "a")
              (Block [VariableDeclaration "b" (Some (NumberLiteral 1))]);
            IfStatement (Identifier "a") (VariableDeclaration "a" None)
              (Some (VariableDeclaration "c" None)) ])
       (fresh false ∅))
  = 0 - 4 * Z.of_nat 4.
Proof.
  apply (stack_offset_counts_declarations
           (Block
              [ VariableDeclaration "a" None;
                WhileStatement (Identifier "a")
                  (Block [VariableDeclaration "b" (Some (NumberLiteral 1))]);
                IfStatement (Identifier "a") (VariableDeclaration "a" None)
                  (Some (VariableDeclaration "c" None)) ])
           (fresh false ∅)).
  - cbn. unfold Int.int_min. lia.
  - cbn. unfold Int.int_max. lia.
Defined.

(** X8.  No scoping: a name declared anywhere inside a statement, however
    deeply nested in blocks, branches or loop bodies, is in the frame table
    once the statement is lowered. *)
Theorem declared_names_persist (name : string) (s : Statement) (g : CodeGen) :
  declares name s = true ->
  is_Some (localVariables (visitStatement s g) !! name).
Proof. apply visitStatement_declared. Qed.

Lemma declared_names_persist_witness :
  is_Some
    (localVariables
       (visitStatement
          (WhileStatement (NumberLiteral 1)
             (Block
                [ IfStatement (NumberLiteral 0)
                    (Block [VariableDeclaration "inner" None]) None;
                  BreakStatement ]))
          (fresh false ∅)) !! "inner").
Proof.
  apply (declared_names_persist "inner"
           (WhileStatement (NumberLiteral 1)
              (Block
                 [ IfStatement (NumberLiteral 0)
                     (Block [VariableDeclaration "inner" None]) None;
                   BreakStatement ]))
           (fresh false ∅)).
  reflexivity.
Defined.

(** X9.  Lowering a statement leaves the frame-table entry of every name it
    does not declare as it was: present with the same offset, or absent. *)
Theorem undeclared_names_untouched
    (name : string) (s : Statement) (g : CodeGen) :
  declares name s = false ->
  localVariables (visitStatement s g) !! name = localVariables g !! name.
Proof. apply visitStatement_undeclared. Qed.

Lemma undeclared_names_untouched_witness :
  let g := visitStatement (VariableDeclaration "x" None) (fresh false ∅) in
  let s := Block [ VariableDeclaration "y" None;
                   AssignmentStatement "x" (Identifier "y") ] in
  localVariables (visitStatement s g) !! "x" = localVariables g !! "x".
Proof.
  cbv zeta.
  apply (undeclared_names_untouched "x"
           (Block [ VariableDeclaration "y" None;
                    AssignmentStatement "x" (Identifier "y") ])
           (visitStatement (VariableDeclaration "x" None) (fresh false ∅))).
  reflexivity.
Defined.

(** X10.  The frame a function reserves does not depend on its locals.  The
    text of a function definition starts with the same prologue, reserving
    8 bytes and saving [ra] and [fp] in them, whatever the body declares,
    while lowering the body takes the frame offsets down to minus four
    times the number of declarations (as long as that fits an [int]). *)
Theorem function_frame_is_fixed (f : FunctionDefinition) (g : CodeGen) :
  Int.int_min <= - 4 * Z.of_nat (declarations (fd_body f)) ->
  stackOffset (visitFunctionDefinition f g)
    = - 4 * Z.of_nat (declarations (fd_body f)) /\
  exists code,
    output (visitFunctionDefinition f g)
    = output g +:+
      unlines [fd_name f +:+ ":"; "addi sp, sp, -8"; "sw ra, 4(sp)";
               "sw fp, 0(sp)"; "addi fp, sp, 8"] +:+ code.
Proof.
  intros Hlo. unfold visitFunctionDefinition. split.
  - cbn [stackOffset emit set_output generateEpilogue].
    rewrite visitStatement_stackOffset;
      cbn [stackOffset emit emitLabel set_output generatePrologue
             set_stackOffset];
      unfold Int.int_max; lia.
  - match goal with
    | |- context [visitStatement (fd_body f) ?g0] =>
        assert (Extends g0 (generateEpilogue (visitStatement (fd_body f) g0)))
          as [code E]
          by (unfold generateEpilogue;
              extends_chain ltac:(apply appends_visitStatement))
    end.
    exists code. rewrite E. unfold generatePrologue.
    cbn [output emit emitLabel set_output set_stackOffset set_localVariables
           set_currentFunction unlines fold_right].
    rewrite ?append_assoc, ?append_nil_r. reflexivity.
Qed.

Lemma function_frame_is_fixed_witness :
  stackOffset
    (visitFunctionDefinition
       {| fd_name := "main";
          fd_body := Block [ VariableDeclaration "a" None;
                             VariableDeclaration "b" None;
                             VariableDeclaration "c" None ] |}
       (fresh false ∅))
  = - 4 * Z.of_nat 3.
Proof.
  apply (proj1 (function_frame_is_fixed
                  {| fd_name := "main";
                     fd_body := Block [ VariableDeclaration "a" None;
                                        VariableDeclaration "b" None;
                                        VariableDeclaration "c" None ] |}
                  (fresh false ∅)
                  ltac:(cbn; unfold Int.int_min; lia))).
Defined.

(** X11.  Prologue and epilogue cancel.  For a function definition whose
    names are single-line (optimizations disabled, or enabled when every
    binary expression reached is folded or simplified and no fold evaluates
    [INT_MIN / -1] or [INT_MIN % -1]), the stack-pointer
    adjustments of its text add up to 8 for each return statement in its
    body: the 8 bytes the prologue reserves are released by the epilogue at
    the end of the function, and each return adds an epilogue of its
    own. *)
Theorem function_net_stack_effect (f : FunctionDefinition) (g : CodeGen) :
  nlfree (fd_name f) = true ->
  statement_names_ok (fd_body f) = true ->
  (optimizationsEnabled g = true -> statement_optimized g (fd_body f) = true) ->
  exists code,
    output (visitFunctionDefinition f g) = output g +:+ code /\
    net_sp code = 8 * Z.of_nat (returns (fd_body f)).
Proof.
  intros Hname Hbody Hopt. apply Lowered_net_sp. now apply function_lowered.
Qed.

Lemma function_net_stack_effect_witness :
  let f := {| fd_name := "twice";
              fd_body :=
                Block [ VariableDeclaration "r"
                          (Some (BinaryExpression ADD (Identifier "n")
                                   (Identifier "n")));
                        ExpressionStatement (FunctionCall "log" [Identifier "r"])
                      ] |} in
  exists code,
    output (visitFunctionDefinition f (fresh false ∅))
      = output (fresh false ∅) +:+ code /\
    net_sp code = 8 * Z.of_nat 0.
Proof.
  cbv zeta.
  apply (function_net_stack_effect
           {| fd_name := "twice";
              fd_body :=
                Block [ VariableDeclaration "r"
                          (Some (BinaryExpression ADD (Identifier "n")
                                   (Identifier "n")));
                        ExpressionStatement (FunctionCall "log" [Identifier "r"])
                      ] |}
           (fresh false ∅)).
  - reflexivity.
  - reflexivity.
  - intros H. discriminate H.
Defined.

(** X12.  The text [generate] returns depends on the unit, the optimization
    switch and the known-constants table only.  The buffer, the counters,
    the frame table and the function name left by an earlier run play no
    part, and neither does the signature table, which is stored and never
    consulted: the text is that of a freshly constructed generator with the
    same switch and constants and an empty signature table. *)
Theorem generate_depends_on_unit_and_settings
    (unit : CompilationUnit) (funcTable : gmap string FunctionInfo)
    (g : CodeGen) :
  fst (generate unit funcTable g)
  = fst (generate unit ∅
           (fresh (optimizationsEnabled g) (constantValues g))).
Proof. apply generate_text_from_fresh. Qed.

(** X13.  A generator can be reused: running [generate] again on the
    generator a run leaves behind, for the same unit, returns the same
    text, whatever signature tables the two runs are given. *)
Theorem generate_is_repeatable
    (unit : CompilationUnit) (table1 table2 : gmap string FunctionInfo)
    (g : CodeGen) :
  fst (generate unit table2 (snd (generate unit table1 g)))
  = fst (generate unit table1 g).
Proof.
  rewrite (generate_text_from_fresh unit table2).
  rewrite (generate_text_from_fresh unit table1 g).
  unfold generate at 2 3. cbn [snd].
  match goal with
  | |- context [visitCompilationUnit unit ?g0] =>
      destruct (keeps_settings_visitCompilationUnit unit g0) as [E1 E2]
  end.
  rewrite E1, E2. reflexivity.
Qed.

(** X14.  With optimizations disabled the known-constants table is never
    consulted: the text [generate] returns is the text a fresh generator
    with an empty constants table returns for the unit. *)
Theorem disabled_generate_ignores_constants
    (unit : CompilationUnit) (funcTable : gmap string FunctionInfo)
    (g : CodeGen) :
  optimizationsEnabled g = false ->
  fst (generate unit funcTable g) = fst (generate unit ∅ (fresh false ∅)).
Proof. apply generate_text_disabled. Qed.

Lemma disabled_generate_ignores_constants_witness :
  let unit :=
    {| cu_functions :=
         [ {| fd_name := "main";
              fd_body :=
                ReturnStatement
                  (Some (BinaryExpression ADD (Identifier "c")
                           (NumberLiteral 0))) |} ] |} in
  fst (generate unit ∅ (fresh false {[ "c"%string := 7 ]}))
  = fst (generate unit ∅ (fresh false ∅)).
Proof.
  cbv zeta.
  apply (disabled_generate_ignores_constants
           {| cu_functions :=
                [ {| fd_name := "main";
                     fd_body :=
                       ReturnStatement
                         (Some (BinaryExpression ADD (Identifier "c")
                                  (NumberLiteral 0))) |} ] |}
           ∅ (fresh false {[ "c"%string := 7 ]})).
  reflexivity.
Defined.

(** X15.  The operator table of the non-folded lowering computes what the
    operator means.  For [int] literals [a] and [b] and each of add, sub,
    mul, lt, le, gt, ge, eq, ne, running the text emitted with
    optimizations disabled leaves on top of the operand stack the wrapped
    sum, difference or product, respectively 1 or 0 as the comparison
    holds or not: [le] and [ge] through the complement of the swapped
    strict comparison, [eq] and [ne] through the test of the difference. *)
Theorem operator_lowering_computes
    (op : BinaryOp) (a b v : Z) :
  Int.in_range a -> Int.in_range b ->
  expected_word op a b = Some v ->
  option_map stack_top
    (run (output (visitExpression
                    (BinaryExpression op (NumberLiteral a) (NumberLiteral b))
                    (fresh false ∅))) machine0) = Some v.
Proof. apply operator_runs. Qed.

Lemma operator_lowering_computes_witness :
  option_map stack_top
    (run (output (visitExpression
                    (BinaryExpression GE (NumberLiteral (-3))
                       (NumberLiteral (-3)))
                    (fresh false ∅))) machine0) = Some 1.
Proof.
  apply (operator_lowering_computes GE (-3) (-3) 1).
  - unfold Int.in_range, Int.int_min, Int.int_max. lia.
  - unfold Int.in_range, Int.int_min, Int.int_max. lia.
  - reflexivity.
Defined.

(** X16.  Unary operators: running the text emitted for [+a], [-a] and
    [!a] over a literal [a], with optimizations enabled or not, leaves [a],
    the wrapped negation of [a], respectively 1 if [a] is zero and 0
    otherwise, on top of the operand stack. *)
Theorem unary_lowering_computes (op : UnaryOp) (a : Z) (opt : bool) :
  option_map stack_top
    (run (output (visitExpression (UnaryExpression op (NumberLiteral a))
                    (fresh opt ∅))) machine0)
  = Some (expected_unary_word op a).
Proof. apply unary_operator_runs. Qed.

(** X17.  With optimizations enabled a binary expression whose fold is not
    undefined (not the fold of [INT_MIN / -1] or [INT_MIN % -1]) is lowered
    in one of three ways only: nothing is emitted and the generator is
    unchanged, or one immediate is pushed, or the expression is lowered
    exactly as its left operand.  The right operand is never lowered and no
    operator instruction is ever emitted. *)
Theorem enabled_binary_three_outcomes
    (op : BinaryOp) (lhs rhs : Expression) (g : CodeGen) :
  optimizationsEnabled g = true ->
  fold_undefined op lhs rhs g = false ->
  visitExpression (BinaryExpression op lhs rhs) g = g \/
  (exists v, visitExpression (BinaryExpression op lhs rhs) g
             = set_output (output g +:+ unlines (push_immediate v)) g) \/
  visitExpression (BinaryExpression op lhs rhs) g = visitExpression lhs g.
Proof.
  intros Hen Hdef. rewrite (visit_binary_enabled g Hen).
  unfold fold_undefined in Hdef.
  unfold optimizeConstantFolding. rewrite Hen. cbn [negb].
  destruct (isConstantExpression (Some lhs) g
            && isConstantExpression (Some rhs) g).
  - cbn [andb] in Hdef.
    destruct op; cbv zeta; unfold Int.div, Int.rem; rewrite ?Hdef;
      repeat match goal with
             | |- context [if ?b then _ else _] => destruct b
             end;
      first [ (left; reflexivity)
            | (right; left; eexists; apply push_immediate_emitted) ].
  - destruct (isConstantExpression (Some rhs) g); [|left; reflexivity].
    destruct op; cbv zeta;
      repeat match goal with
             | |- context [if ?b then _ else _] => destruct b
             end;
      first [ (left; reflexivity)
            | (right; right; reflexivity)
            | (right; left; exists 0; exact (push_immediate_emitted 0 g)) ].
Qed.

Lemma enabled_binary_three_outcomes_witness :
  let e := BinaryExpression DIV (NumberLiteral 7) (NumberLiteral 2) in
  visitExpression e (fresh true ∅) = fresh true ∅ \/
  (exists v, visitExpression e (fresh true ∅)
             = set_output
                 (output (fresh true ∅) +:+ unlines (push_immediate v))
                 (fresh true ∅)) \/
  visitExpression e (fresh true ∅)
    = visitExpression (NumberLiteral 7) (fresh true ∅).
Proof.
  cbv zeta.
  apply (enabled_binary_three_outcomes DIV (NumberLiteral 7) (NumberLiteral 2)
           (fresh true ∅)).
  - reflexivity.
  - reflexivity.
Defined.

(** X18.  Folding agrees with the lowering it replaces.  For [int]
    literals [a] and [b] and each of add, sub and mul, running the text
    emitted with optimizations enabled (one pushed immediate) and running
    the text emitted with optimizations disabled (two pushes and the
    operator instruction) leave the same word on top of the operand
    stack. *)
Theorem folding_agrees_with_lowering (op : BinaryOp) (a b : Z) :
  Int.in_range a -> Int.in_range b ->
  op = ADD \/ op = SUB \/ op = MUL ->
  let e := BinaryExpression op (NumberLiteral a) (NumberLiteral b) in
  option_map stack_top
    (run (output (visitExpression e (fresh true ∅))) machine0)
  = option_map stack_top
      (run (output (visitExpression e (fresh false ∅))) machine0) /\
  option_map stack_top
    (run (output (visitExpression e (fresh false ∅))) machine0)
  = expected_word op a b.
Proof.
  intros Ha Hb Hop e. subst e.
  destruct Hop as [-> | [-> | ->]].
  - rewrite (folded_literals_run ADD a b (a + b) eq_refl eq_refl).
    rewrite (operator_runs ADD a b (Int.add a b) Ha Hb eq_refl).
    split; reflexivity.
  - rewrite (folded_literals_run SUB a b (a - b) eq_refl eq_refl).
    rewrite (operator_runs SUB a b (Int.sub a b) Ha Hb eq_refl).
    split; reflexivity.
  - rewrite (folded_literals_run MUL a b (a * b) eq_refl eq_refl).
    rewrite (operator_runs MUL a b (Int.mul a b) Ha Hb eq_refl).
    split; reflexivity.
Qed.

Lemma folding_agrees_with_lowering_witness :
  let e := BinaryExpression MUL (NumberLiteral 65536) (NumberLiteral 65536) in
  option_map stack_top
    (run (output (visitExpression e (fresh true ∅))) machine0)
  = option_map stack_top
      (run (output (visitExpression e (fresh false ∅))) machine0) /\
  option_map stack_top
    (run (output (visitExpression e (fresh false ∅))) machine0)
  = expected_word MUL 65536 65536.
Proof.
  apply (folding_agrees_with_lowering MUL 65536 65536).
  - unfold Int.in_range, Int.int_min, Int.int_max. lia.
  - unfold Int.in_range, Int.int_min, Int.int_max. lia.
  - right. right. reflexivity.
Defined.
